(** * Potential-flow tool: the rotating-cylinder solver, the Cylinder preset
    and the field aggregator.

    Shallow embedding of
      - [src/plots/plotRotatingCylinder.py]  (function [plotRotatingCylinder]),
      - [lib/presets/cylinder.py]            (class [PresetCylinder]),
      - [src/flowfield.py]                   (method [Flowfield.draw]).

    Numbers.  The program computes with IEEE-754 doubles; here every number
    is a real ([R]), so the theorems below are about the exact-arithmetic
    reading of the formulas.  Rounding and Inf are outside this model, and so
    is every not-a-number but one: the [nan] that [np.arcsin] returns outside
    [[-1, 1]], which the stagnation-point branch reaches for ordinary
    inputs, is modelled ([None] in an array of [option R]).
    What *is* modelled of the arithmetic's control behaviour is the
    difference Python makes between
      - a division whose operands are both Python scalars, which raises
        [ZeroDivisionError] on a zero divisor ([py_div]), and
      - a division with a numpy array operand, which never raises
        ([Rdiv]; its value at a zero divisor is meaningless here, so every
        statement about such a value carries the side condition that the
        divisor is non-zero). *)

From Stdlib Require Import Reals Lra Lia List String Bool.
From Stdlib Require Import Permutation.
Import ListNotations.
Open Scope R_scope.

(** ** Python results *)

Inductive PyError : Type :=
| ValueError (msg : string)
| ZeroDivisionError
| UnboundLocalError.

Inductive Res (A : Type) : Type :=
| Ok (a : A)
| Raise (e : PyError).
Arguments Ok {A} a.
Arguments Raise {A} e.

Definition bind {A B : Type} (m : Res A) (k : A -> Res B) : Res B :=
  match m with
  | Ok a => k a
  | Raise e => Raise e
  end.

Notation "x <- m ;; k" := (bind m (fun x => k))
  (at level 61, m at next level, right associativity).

(** [a / b] on two Python scalars. *)
Definition py_div (a b : R) : Res R :=
  if Req_dec_T b 0 then Raise ZeroDivisionError else Ok (a / b).

(** ** The numpy functions the program calls *)

Module Np.

(** [np.linspace(start, stop, num)] with the default [endpoint=True]:
    [start + i * step] for [i = 0 .. num-1], [step = (stop-start)/(num-1)]. *)
Definition linspace (start stop : R) (num : nat) : list R :=
  map (fun i : nat => start + INR i * ((stop - start) / INR (num - 1)))
      (seq 0 num).

(** [np.arctan2(y, x)]: the angle of the point [(x, y)], in [(-pi, pi]]. *)
Definition arctan2 (y x : R) : R :=
  if Rlt_dec 0 x then atan (y / x)
  else if Rlt_dec x 0 then
         if Rle_dec 0 y then atan (y / x) + PI else atan (y / x) - PI
  else if Rlt_dec 0 y then PI / 2
  else if Rlt_dec y 0 then - (PI / 2)
  else 0.

(** [np.arcsin(x)]: the arc sine on [[-1, 1]]; outside, numpy returns [nan]
    (with a warning, without raising), here [None]. *)
Definition arcsin (x : R) : option R :=
  if Rle_dec (-1) x then
    if Rle_dec x 1 then Some (asin x) else None
  else None.

(** [f] applied at every node of [np.meshgrid(xs, ys)]: row [i] holds the
    points [(xs[j], ys[i])]. *)
Definition on_mesh {A : Type} (f : R -> R -> A) (xs ys : list R)
  : list (list A) :=
  map (fun y => map (fun x => f x y) xs) ys.

(** Entry [[i][j]] of a two-dimensional array. *)
Definition at2 {A : Type} (a : list (list A)) (i j : nat) : option A :=
  match nth_error a i with
  | Some row => nth_error row j
  | None => None
  end.

(** Element-wise binary operation on two arrays of one shape. *)
Fixpoint zip_with {A B C : Type} (f : A -> B -> C) (l : list A) (m : list B)
  : list C :=
  match l, m with
  | a :: l', b :: m' => f a b :: zip_with f l' m'
  | _, _ => []
  end.

End Np.

(** ** [plotRotatingCylinder] *)

Module Cyl.

(** *** Grid fields (lines 27-44), at one mesh node [(x, y)] *)

Definition r_at (x y : R) : R := sqrt (x * x + y * y).
Definition theta_at (x y : R) : R := Np.arctan2 y x.

Definition Vr (Vinf cylinderRadius r theta : R) : R :=
  (1 - cylinderRadius * cylinderRadius / (r * r)) * Vinf * cos theta.

Definition Vtheta (Vinf cylinderRadius strength r theta : R) : R :=
  - (1 + cylinderRadius * cylinderRadius / (r * r)) * Vinf * sin theta
  - strength / (2 * PI * r).

Definition Vmag (vr vtheta : R) : R := sqrt (vr * vr + vtheta * vtheta).
Definition Vx (vr vtheta theta : R) : R := vr * cos theta - vtheta * sin theta.
Definition Vy (vr vtheta theta : R) : R := vr * sin theta + vtheta * cos theta.

Definition phi (Vinf cylinderRadius strength r theta : R) : R :=
  Vinf * r * cos theta * (1 + cylinderRadius * cylinderRadius / (r * r))
  - strength / (2 * PI) * theta.

Definition psi (Vinf cylinderRadius strength r theta : R) : R :=
  Vinf * r * sin theta * (1 - cylinderRadius * cylinderRadius / (r * r))
  + strength / (2 * PI) * ln (r / cylinderRadius).

(** The seven values the program holds at one mesh node. *)
Record Node : Type := mkNode {
  n_Vr : R; n_Vtheta : R; n_Vmag : R; n_Vx : R; n_Vy : R;
  n_phi : R; n_psi : R
}.

Definition node (Vinf cylinderRadius strength x y : R) : Node :=
  let r := r_at x y in
  let theta := theta_at x y in
  let vr := Vr Vinf cylinderRadius r theta in
  let vtheta := Vtheta Vinf cylinderRadius strength r theta in
  mkNode vr vtheta (Vmag vr vtheta) (Vx vr vtheta theta) (Vy vr vtheta theta)
         (phi Vinf cylinderRadius strength r theta)
         (psi Vinf cylinderRadius strength r theta).

Definition grid_points : nat := 50%nat.

Definition grid (Lx Ly : R * R) (Vinf cylinderRadius strength : R)
  : list (list Node) :=
  let x := Np.linspace (fst Lx) (snd Lx) grid_points in
  let y := Np.linspace (fst Ly) (snd Ly) grid_points in
  Np.on_mesh (node Vinf cylinderRadius strength) x y.

(** *** Body surface (lines 46-62), at one surface angle [thetaS] *)

Record SurfacePoint : Type := mkSurfacePoint {
  s_theta : R; s_r : R; s_x : R; s_y : R;
  s_Vr : R; s_Vtheta : R; s_Vmag : R; s_Vx : R; s_Vy : R; s_Cp : R
}.

(** [n = 250]. *)
Definition surface_samples : nat := 250%nat.

Definition thetaS (n : nat) : list R := Np.linspace 0 (2 * PI) n.

(** [vortex] is the value of the scalar subexpression
    [strength/(2*np.pi*cylinderRadius)] of line 56. *)
Definition surface_point (Vinf cylinderRadius vortex theta : R)
  : SurfacePoint :=
  let rS := cylinderRadius * 1 in
  let VrS :=
    (1 - cylinderRadius * cylinderRadius / (rS * rS)) * Vinf * cos theta in
  let VthetaS :=
    - (1 + cylinderRadius * cylinderRadius / (rS * rS)) * Vinf * sin theta
    - vortex in
  let VmagS := sqrt (VrS * VrS + VthetaS * VthetaS) in
  mkSurfacePoint theta rS (rS * cos theta) (rS * sin theta)
    VrS VthetaS VmagS
    (VrS * cos theta - VthetaS * sin theta)
    (VrS * sin theta + VthetaS * cos theta)
    (1 - VmagS * VmagS / (Vinf * Vinf)).

Definition surface (Vinf cylinderRadius strength : R) (n : nat)
  : Res (list SurfacePoint) :=
  vortex <- py_div strength (2 * PI * cylinderRadius) ;;
  Ok (map (surface_point Vinf cylinderRadius vortex) (thetaS n)).

(** *** Stagnation points (lines 64-78) *)

(** An entry of [thetaStag], [xStag] or [yStag] is [Some v] for the number
    [v] and [None] for [nan]. *)
Record Stagnation : Type := mkStagnation {
  condition : R;
  thetaStag : list (option R);
  rStag : list R;
  xStag : list (option R);
  yStag : list (option R)
}.

(** [thetaStag += (thetaStag < 0)*2*np.pi], at one entry that is a number;
    a [nan] entry stays [nan] ([nan < 0] is false and [nan + 0] is [nan]). *)
Definition wrap_negative (t : R) : R :=
  t + (if Rlt_dec t 0 then 1 else 0) * 2 * PI.

Definition stagnation (Vinf cylinderRadius strength : R) : Res Stagnation :=
  cond <- py_div strength (4 * PI * Vinf * cylinderRadius) ;;
  tr <- (if Rlt_dec cond 1 then
           Ok (map (option_map wrap_negative)
                 [option_map (fun a => PI - a) (Np.arcsin (- cond));
                  Np.arcsin (- cond)],
               [cylinderRadius; cylinderRadius])
         else if Req_dec_T cond 1 then
           Ok ([Some (3 * PI / 2)], [cylinderRadius])
         else if Rgt_dec cond 1 then
           tmp <- py_div strength (4 * PI * Vinf) ;;
           Ok ([Some (3 * PI / 2); Some (3 * PI / 2)],
               [tmp + sqrt (tmp ^ 2 - cylinderRadius ^ 2);
                tmp - sqrt (tmp ^ 2 - cylinderRadius ^ 2)])
         else Raise UnboundLocalError) ;;
  Ok (mkStagnation cond (fst tr) (snd tr)
        (Np.zip_with (fun r t => option_map (fun t => r * cos t) t)
           (snd tr) (fst tr))
        (Np.zip_with (fun r t => option_map (fun t => r * sin t) t)
           (snd tr) (fst tr))).

(** *** The whole call *)

(** The numeric results of one call, with Python numbers as its arguments:
    [Ok sol] says that lines 11-78 ran to the end and computed [sol].  The
    figure construction that follows (lines 80-642, calls into the plotting
    library) is not part of this model, except for which of the two traces
    under [if cylinderRadius != 0:] (lines 305 and 369) are added:
    [body_contour] and [stag_markers]. *)
Record Solution : Type := mkSolution {
  sol_grid : list (list Node);
  sol_surface : list SurfacePoint;
  sol_stag : Stagnation;
  body_contour : option (list (R * R));
  stag_markers : option (list (option R * option R))
}.

Definition plotRotatingCylinder
  (Lx Ly : R * R) (Vinf cylinderRadius strength : R) : Res Solution :=
  if Rgt_dec (fst Lx) (snd Lx) then
    Raise (ValueError "Domain endpoints incorrectly defined: Lx[0] > Lx[1]")
  else if Rgt_dec (fst Ly) (snd Ly) then
    Raise (ValueError "Domain endpoints incorrectly defined: Ly[0] > Ly[1]")
  else if Rlt_dec Vinf 0 then
    Raise (ValueError "Freestream Velocity Magnitude is negative!")
  else if Rlt_dec cylinderRadius 0 then
    Raise (ValueError "Cylinder radius is negative!")
  else
    let g := grid Lx Ly Vinf cylinderRadius strength in
    s <- surface Vinf cylinderRadius strength surface_samples ;;
    st <- stagnation Vinf cylinderRadius strength ;;
    let drawn := if Req_dec_T cylinderRadius 0 then false else true in
    Ok (mkSolution g s st
          (if drawn then Some (map (fun p => (s_x p, s_y p)) s) else None)
          (if drawn then Some (combine (xStag st) (yStag st)) else None)).

End Cyl.

(** ** [PresetCylinder] *)

Module Preset.

Record PresetCylinder : Type := mkPresetCylinder {
  Vinfty : R;
  radius : R;
  position : R * R
}.

(** Set by [__post_init__]. *)
Definition x0 (c : PresetCylinder) : R := fst (position c).
Definition y0 (c : PresetCylinder) : R := snd (position c).
Definition type (c : PresetCylinder) : string := "Cylinder"%string.

(** [(du, dv, dphi, dpsi)] at one query point [(x, y)]. *)
Definition calculate_contribution (self : PresetCylinder) (x y : R)
  : R * R * R * R :=
  let dx := x - x0 self in
  let dy := y - y0 self in
  let r := sqrt (dx * dx + dy * dy) in
  let theta := Np.arctan2 dy dx in
  let Vr := Vinfty self * cos theta * (1 - (radius self / r) ^ 2) in
  let Vtheta := - Vinfty self * sin theta * (1 + (radius self / r) ^ 2) in
  let du := Vr * cos theta - Vtheta * sin theta in
  let dv := Vr * sin theta + Vtheta * cos theta in
  let dphi := Vinfty self * r * cos theta * (1 + (radius self / r) ^ 2) in
  let dpsi := Vinfty self * r * sin theta * (1 - (radius self / r) ^ 2) in
  (du, dv, dphi, dpsi).

End Preset.

(** ** Flow elements that are not part of the sources at hand *)

Module Elements.

(** Modelled from the spec: the Uniform flow element (its class is not among
    the source files).  "Uniform flow with vector (U, V): velocity is constant
    (U, V) everywhere; potential = U*x + V*y; streamfunction = U*y - V*x."
    The result is [(u, v, phi, psi)] at the query point [(x, y)]. *)
Definition uniform (U V : R) (x y : R) : R * R * R * R :=
  (U, V, U * x + V * y, U * y - V * x).

(** Modelled from the spec: the Doublet element (its class is not among the
    source files).  "Doublet at (x0,y0) with strength kappa and orientation
    alpha: let dx = x-x0, dy = y-y0, r^2 = dx^2+dy^2, theta = atan2(dy,dx).
    Vr = -(kappa/(2 pi r^2)) cos(theta-alpha),
    Vtheta = -(kappa/(2 pi r^2)) sin(theta-alpha);
    u = Vr cos theta - Vtheta sin theta, v = Vr sin theta + Vtheta cos theta;
    phi = (kappa/(2 pi r)) cos(theta-alpha),
    psi = -(kappa/(2 pi r)) sin(theta-alpha)." *)
Definition doublet (kappa alpha x0 y0 : R) (x y : R) : R * R * R * R :=
  let dx := x - x0 in
  let dy := y - y0 in
  let r := sqrt (dx ^ 2 + dy ^ 2) in
  let theta := Np.arctan2 dy dx in
  let Vr := - (kappa / (2 * PI * r ^ 2)) * cos (theta - alpha) in
  let Vtheta := - (kappa / (2 * PI * r ^ 2)) * sin (theta - alpha) in
  (Vr * cos theta - Vtheta * sin theta,
   Vr * sin theta + Vtheta * cos theta,
   kappa / (2 * PI * r) * cos (theta - alpha),
   - (kappa / (2 * PI * r)) * sin (theta - alpha)).

(** Component-wise sum of two contributions. *)
Definition add4 (a b : R * R * R * R) : R * R * R * R :=
  let '(a1, a2, a3, a4) := a in
  let '(b1, b2, b3, b4) := b in
  (a1 + b1, a2 + b2, a3 + b3, a4 + b4).

End Elements.

(** ** [Flowfield.draw] *)

Module Field.

Definition point : Type := (R * R)%type.

(** What [draw] reads of a flow element: its type name (the result of
    [flow_element_type]), the four evaluation methods, taken at one query
    point, and the attributes [u], [v], which [draw] reads of Uniform
    elements only. *)
Record FlowElement : Type := mkFlowElement {
  elem_type : string;
  get_x_velocity_at : point -> R;
  get_y_velocity_at : point -> R;
  get_potential_at : point -> R;
  get_streamfunction_at : point -> R;
  u : R;
  v : R
}.

(** Modelled from the spec: the Uniform element as a [FlowElement], built on
    [Elements.uniform] (the class is not among the source files). *)
Definition Uniform (U V : R) : FlowElement :=
  let c := fun p : point => Elements.uniform U V (fst p) (snd p) in
  mkFlowElement "Uniform"
    (fun p => fst (fst (fst (c p))))
    (fun p => snd (fst (fst (c p))))
    (fun p => snd (fst (c p)))
    (fun p => snd (c p))
    U V.

(** The variables the loop of [draw] writes.  [Cp] is bound by the first
    iteration only. *)
Record Acc : Type := mkAcc {
  x_vels : list R;
  y_vels : list R;
  potential : list R;
  streamfunction : list R;
  u_cumulative : R;
  v_cumulative : R;
  V2_infty : R;
  Cp : option (list R)
}.

Definition is_uniform (object : FlowElement) : bool :=
  String.eqb (elem_type object) "Uniform".

(** Lines 79-85. *)
Definition init (points : list point) : Acc :=
  let zeros := map (fun _ => 0) points in
  mkAcc zeros zeros zeros zeros 0 0 1 None.

(** One iteration of the loop, lines 89-101. *)
Definition step (points : list point) (a : Acc) (object : FlowElement) : Acc :=
  let xv := Np.zip_with Rplus (x_vels a) (map (get_x_velocity_at object) points) in
  let yv := Np.zip_with Rplus (y_vels a) (map (get_y_velocity_at object) points) in
  let po := Np.zip_with Rplus (potential a) (map (get_potential_at object) points) in
  let sf := Np.zip_with Rplus (streamfunction a)
              (map (get_streamfunction_at object) points) in
  let uc := if is_uniform object then u_cumulative a + u object
            else u_cumulative a in
  let vc := if is_uniform object then v_cumulative a + v object
            else v_cumulative a in
  let V2i := if is_uniform object then
               let V2i := uc ^ 2 + vc ^ 2 in
               if Req_dec_T V2i 0 then 1 else V2i
             else V2_infty a in
  let V2 := Np.zip_with Rplus (map (fun x => x ^ 2) xv) (map (fun y => y ^ 2) yv) in
  mkAcc xv yv po sf uc vc V2i (Some (map (fun w => 1 - w / V2i) V2)).

(** [points]: the mesh of [x_points] and [y_points], flattened row by row. *)
Definition mesh_points (x_points y_points : list R) : list point :=
  List.concat (Np.on_mesh (fun x y => (x, y)) x_points y_points).

(** The numeric part of [draw]: [None] is the early return on an empty
    collection (line 69); [objects] lists the dictionary's items in
    iteration order. *)
Definition draw (objects : list (string * FlowElement))
  (x_points y_points : list R) : option Acc :=
  if (List.length objects =? 0)%nat then None
  else
    let points := mesh_points x_points y_points in
    Some (fold_left (step points) (map snd objects) (init points)).

End Field.

(** ** The half-surface traces of [plotRotatingCylinder] (lines 204-290) *)

Module Traces.

(** [a[thetaS <= np.pi]]: the entries of a surface array whose angle is at
    most [pi]. *)
Definition top_half (s : list Cyl.SurfacePoint) : list Cyl.SurfacePoint :=
  filter (fun p => if Rle_dec (Cyl.s_theta p) PI then true else false) s.

(** [a[thetaS >= np.pi]]. *)
Definition bottom_half (s : list Cyl.SurfacePoint) : list Cyl.SurfacePoint :=
  filter (fun p => if Rge_dec (Cyl.s_theta p) PI then true else false) s.

End Traces.

(** ** Marker styling in [flowfield.py] (lines 20-42) *)

Module Display.

(** The argument is the [strength] attribute of the object, [None] when the
    object has none (the [AttributeError] branch).  The real [tanh] stays
    below 1 where the rounded one reaches 1.0 for large arguments, so bounds
    on these sizes are stated as non-strict. *)
Definition line_color (strength : option R) : string :=
  match strength with
  | Some s => if Rgt_dec s 0 then "green" else "red"
  | None => "black"
  end.

Definition dot_size (strength : option R) : R :=
  let strength :=
    match strength with
    | Some s => Rabs s / 10
    | None => 1
    end in
  10 + tanh strength * 10.

Definition line_width (strength : option R) : R :=
  let strength :=
    match strength with
    | Some s => Rabs s / 10
    | None => 1
    end in
  10 + tanh strength * 10.

End Display.

(** ** What the specification calls a valid input *)

Definition valid_extents (Lx Ly : R * R) : Prop :=
  fst Lx <= snd Lx /\ fst Ly <= snd Ly.

Definition valid_input (Lx Ly : R * R) (Vinf cylinderRadius : R) : Prop :=
  valid_extents Lx Ly /\ 0 <= Vinf /\ 0 <= cylinderRadius.


(** The specification's closed forms of the cylinder solution, in polar
    coordinates [(r, theta)]. *)
Module Closed.

Definition Vr (Vinf Rc r theta : R) : R :=
  (1 - Rc ^ 2 / r ^ 2) * Vinf * cos theta.

Definition Vtheta (Vinf Rc Gamma r theta : R) : R :=
  - (1 + Rc ^ 2 / r ^ 2) * Vinf * sin theta - Gamma / (2 * PI * r).

Definition phi (Vinf Rc Gamma r theta : R) : R :=
  Vinf * r * cos theta * (1 + Rc ^ 2 / r ^ 2) - (Gamma / (2 * PI)) * theta.

Definition psi (Vinf Rc Gamma r theta : R) : R :=
  Vinf * r * sin theta * (1 - Rc ^ 2 / r ^ 2)
  + (Gamma / (2 * PI)) * ln (r / Rc).

End Closed.

(** The specification's free-stream speed squared for an element
    collection: the sums of [u] and of [v] over the Uniform elements, squared
    and added, with 1 substituted when that is exactly zero. *)
Definition Rsum (l : list R) : R := fold_right Rplus 0 l.

Definition uniform_u_sum (objects : list Field.FlowElement) : R :=
  Rsum (map Field.u (filter Field.is_uniform objects)).

Definition uniform_v_sum (objects : list Field.FlowElement) : R :=
  Rsum (map Field.v (filter Field.is_uniform objects)).

Definition one_if_zero (s : R) : R := if Req_dec_T s 0 then 1 else s.

Definition freestream_speed2 (objects : list Field.FlowElement) : R :=
  one_if_zero (uniform_u_sum objects ^ 2 + uniform_v_sum objects ^ 2).

(** * Proofs *)

(** ** Scalar division *)

Lemma py_div_ok (a b : R) : b <> 0 -> py_div a b = Ok (a / b).
Proof.
  intros Hb. unfold py_div. destruct (Req_dec_T b 0) as [E | _]; [contradiction | reflexivity].
Qed.

Lemma py_div_zero (a b : R) : b = 0 -> py_div a b = Raise ZeroDivisionError.
Proof.
  intros Hb. unfold py_div. destruct (Req_dec_T b 0) as [_ | N]; [reflexivity | contradiction].
Qed.

Lemma two_pi_pos : 0 < 2 * PI.
Proof. pose proof PI_RGT_0. lra. Qed.

Lemma four_pi_pos : 0 < 4 * PI.
Proof. pose proof PI_RGT_0. lra. Qed.

(** ** The sanity check *)

Lemma sanity_check_passes (Lx Ly : R * R) (Vinf cylinderRadius strength : R) :
  valid_input Lx Ly Vinf cylinderRadius ->
  Cyl.plotRotatingCylinder Lx Ly Vinf cylinderRadius strength =
  (s <- Cyl.surface Vinf cylinderRadius strength Cyl.surface_samples ;;
   st <- Cyl.stagnation Vinf cylinderRadius strength ;;
   let drawn := if Req_dec_T cylinderRadius 0 then false else true in
   Ok (Cyl.mkSolution (Cyl.grid Lx Ly Vinf cylinderRadius strength) s st
         (if drawn then Some (map (fun p => (Cyl.s_x p, Cyl.s_y p)) s) else None)
         (if drawn then Some (combine (Cyl.xStag st) (Cyl.yStag st)) else None))).
Proof.
  intros [[Hx Hy] [Hv Hr]]. unfold Cyl.plotRotatingCylinder.
  destruct (Rgt_dec (fst Lx) (snd Lx)); [lra |].
  destruct (Rgt_dec (fst Ly) (snd Ly)); [lra |].
  destruct (Rlt_dec Vinf 0); [lra |].
  destruct (Rlt_dec cylinderRadius 0); [lra |].
  reflexivity.
Qed.

(** The only error the two computing stages can raise is Python's
    [ZeroDivisionError]; the three branches on [condition] are exhaustive. *)
Lemma surface_error (Vinf cylinderRadius strength : R) (n : nat) (e : PyError) :
  Cyl.surface Vinf cylinderRadius strength n = Raise e -> e = ZeroDivisionError.
Proof.
  unfold Cyl.surface, py_div.
  destruct (Req_dec_T (2 * PI * cylinderRadius) 0); cbn [bind]; intros H;
    now inversion H.
Qed.

Lemma stagnation_error (Vinf cylinderRadius strength : R) (e : PyError) :
  Cyl.stagnation Vinf cylinderRadius strength = Raise e -> e = ZeroDivisionError.
Proof.
  unfold Cyl.stagnation, py_div.
  destruct (Req_dec_T (4 * PI * Vinf * cylinderRadius) 0); cbn [bind];
    [intros H; now inversion H |].
  destruct (Rlt_dec (strength / (4 * PI * Vinf * cylinderRadius)) 1);
    cbn [bind]; [discriminate |].
  destruct (Req_dec_T (strength / (4 * PI * Vinf * cylinderRadius)) 1);
    cbn [bind]; [discriminate |].
  destruct (Rgt_dec (strength / (4 * PI * Vinf * cylinderRadius)) 1);
    [| lra].
  destruct (Req_dec_T (4 * PI * Vinf) 0); cbn [bind]; intros H;
    now inversion H.
Qed.

(** C3.  The call raises the invalid-parameter error ([ValueError]) exactly
    when one of the four checks fails: [Lx[0] > Lx[1]], [Ly[0] > Ly[1]],
    [Vinf < 0] or [cylinderRadius < 0].  The result is then the error alone,
    no field has been computed; and no other condition on the input makes
    the call raise this error. *)
Theorem invalid_parameters_rejected
  (Lx Ly : R * R) (Vinf cylinderRadius strength : R) :
  (fst Lx > snd Lx \/ fst Ly > snd Ly \/ Vinf < 0 \/ cylinderRadius < 0) <->
  (exists msg,
     Cyl.plotRotatingCylinder Lx Ly Vinf cylinderRadius strength =
     Raise (ValueError msg)).
Proof.
  split.
  - intros H. unfold Cyl.plotRotatingCylinder.
    destruct (Rgt_dec (fst Lx) (snd Lx)); [eexists; reflexivity |].
    destruct (Rgt_dec (fst Ly) (snd Ly)); [eexists; reflexivity |].
    destruct (Rlt_dec Vinf 0); [eexists; reflexivity |].
    destruct (Rlt_dec cylinderRadius 0); [eexists; reflexivity |].
    lra.
  - intros [msg H].
    destruct (Rgt_dec (fst Lx) (snd Lx)) as [|Nx]; [tauto |].
    destruct (Rgt_dec (fst Ly) (snd Ly)) as [|Ny]; [tauto |].
    destruct (Rlt_dec Vinf 0) as [|Nv]; [tauto |].
    destruct (Rlt_dec cylinderRadius 0) as [|Nr]; [tauto |].
    exfalso.
    rewrite sanity_check_passes in H by (repeat split; lra).
    destruct (Cyl.surface Vinf cylinderRadius strength Cyl.surface_samples)
      as [s | e] eqn:Es; cbn [bind] in H.
    + destruct (Cyl.stagnation Vinf cylinderRadius strength)
        as [st | e] eqn:Est; cbn [bind] in H; [discriminate |].
      apply stagnation_error in Est. subst e. discriminate.
    + apply surface_error in Es. subst e. discriminate.
Qed.

(** C4.  With Python numbers as arguments, an otherwise valid call with
    [Vinf = 0] or [cylinderRadius = 0] does not return: the scalar division
    of line 56 (zero radius) or of line 65 (zero speed) raises
    [ZeroDivisionError]. *)
Theorem zero_speed_or_radius_raises
  (Lx Ly : R * R) (Vinf cylinderRadius strength : R) :
  valid_input Lx Ly Vinf cylinderRadius ->
  Vinf = 0 \/ cylinderRadius = 0 ->
  Cyl.plotRotatingCylinder Lx Ly Vinf cylinderRadius strength =
  Raise ZeroDivisionError.
Proof.
  intros Hv Hz. rewrite sanity_check_passes by assumption.
  unfold Cyl.surface.
  destruct (Req_dec_T cylinderRadius 0) as [Er | Nr].
  - rewrite py_div_zero by (subst; ring). reflexivity.
  - destruct Hz as [Ev | Er]; [| contradiction].
    rewrite py_div_ok
      by (pose proof two_pi_pos; apply Rmult_integral_contrapositive_currified; lra).
    cbn [bind]. unfold Cyl.stagnation.
    rewrite py_div_zero by (subst; ring). reflexivity.
Qed.

Lemma zero_speed_or_radius_raises_witness :
  Cyl.plotRotatingCylinder (-5, 5) (-5, 5) 1 0 1 = Raise ZeroDivisionError.
Proof.
  apply zero_speed_or_radius_raises.
  - unfold valid_input, valid_extents; simpl; lra.
  - right; reflexivity.
Defined.

(** ** A call with positive speed and radius returns *)

Lemma arcsin_defined (x : R) : -1 <= x <= 1 -> Np.arcsin x = Some (asin x).
Proof.
  intros [Hl Hu]. unfold Np.arcsin.
  destruct (Rle_dec (-1) x); [| lra]. destruct (Rle_dec x 1); [reflexivity | lra].
Qed.


(** The two surface angles, where the arc sine is defined. *)
Lemma surface_angles_defined (c : R) :
  -1 <= c <= 1 ->
  map (option_map Cyl.wrap_negative)
    [option_map (fun a => PI - a) (Np.arcsin (- c)); Np.arcsin (- c)] =
  [Some (Cyl.wrap_negative (PI - asin (- c)));
   Some (Cyl.wrap_negative (asin (- c)))].
Proof.
  intros Hc. rewrite arcsin_defined by lra. reflexivity.
Qed.


Lemma stagnation_returns (Vinf cylinderRadius strength : R) :
  0 < Vinf -> 0 < cylinderRadius ->
  let c := strength / (4 * PI * Vinf * cylinderRadius) in
  let t := strength / (4 * PI * Vinf) in
  exists st,
    Cyl.stagnation Vinf cylinderRadius strength = Ok st /\
    Cyl.condition st = c /\
    (c < 1 ->
     Cyl.thetaStag st =
       map (option_map Cyl.wrap_negative)
         [option_map (fun a => PI - a) (Np.arcsin (- c)); Np.arcsin (- c)] /\
     Cyl.rStag st = [cylinderRadius; cylinderRadius]) /\
    (c = 1 ->
     Cyl.thetaStag st = [Some (3 * PI / 2)] /\
     Cyl.rStag st = [cylinderRadius]) /\
    (c > 1 ->
     Cyl.thetaStag st = [Some (3 * PI / 2); Some (3 * PI / 2)] /\
     Cyl.rStag st = [t + sqrt (t ^ 2 - cylinderRadius ^ 2);
                     t - sqrt (t ^ 2 - cylinderRadius ^ 2)]).
Proof.
  intros Hv Hr c t. pose proof four_pi_pos as H4.
  assert (Hd : 4 * PI * Vinf * cylinderRadius <> 0).
  { apply Rgt_not_eq. apply Rmult_lt_0_compat; [apply Rmult_lt_0_compat |]; assumption. }
  assert (Ht : 4 * PI * Vinf <> 0).
  { apply Rgt_not_eq. apply Rmult_lt_0_compat; assumption. }
  unfold Cyl.stagnation. rewrite (py_div_ok _ _ Hd). cbn [bind].
  fold c.
  destruct (Rlt_dec c 1) as [Lt | NLt]; cbn [bind].
  - eexists. split; [reflexivity |]. cbn. repeat split; intros; try lra; reflexivity.
  - destruct (Req_dec_T c 1) as [Eq | NEq]; cbn [bind].
    + eexists. split; [reflexivity |]. cbn. repeat split; intros; try lra; reflexivity.
    + destruct (Rgt_dec c 1) as [Gt | NGt]; [| lra].
      rewrite (py_div_ok _ _ Ht). cbn [bind]. fold t.
      eexists. split; [reflexivity |]. cbn. repeat split; intros; try lra; reflexivity.
Qed.

Lemma plot_returns (Lx Ly : R * R) (Vinf cylinderRadius strength : R) :
  valid_extents Lx Ly -> 0 < Vinf -> 0 < cylinderRadius ->
  exists sol,
    Cyl.plotRotatingCylinder Lx Ly Vinf cylinderRadius strength = Ok sol /\
    Cyl.sol_grid sol = Cyl.grid Lx Ly Vinf cylinderRadius strength /\
    Cyl.sol_surface sol =
      map (Cyl.surface_point Vinf cylinderRadius
             (strength / (2 * PI * cylinderRadius)))
          (Cyl.thetaS Cyl.surface_samples) /\
    Cyl.stagnation Vinf cylinderRadius strength = Ok (Cyl.sol_stag sol) /\
    Cyl.body_contour sol <> None /\ Cyl.stag_markers sol <> None.
Proof.
  intros He Hv Hr.
  rewrite sanity_check_passes by (repeat split; try apply He; lra).
  unfold Cyl.surface.
  rewrite py_div_ok
    by (pose proof two_pi_pos; apply Rmult_integral_contrapositive_currified; lra).
  cbn [bind].
  destruct (stagnation_returns Vinf cylinderRadius strength Hv Hr) as [st [Est _]].
  rewrite Est. cbn [bind].
  destruct (Req_dec_T cylinderRadius 0) as [E | _]; [lra |].
  eexists. split; [reflexivity |]. cbn.
  repeat split; try assumption; discriminate.
Qed.

(** ** Stagnation points *)




(** The radii of the third regime. *)
Lemma off_surface_radii (Vinf cylinderRadius strength : R) :
  0 < Vinf -> 0 < cylinderRadius ->
  strength / (4 * PI * Vinf * cylinderRadius) > 1 ->
  let t := strength / (4 * PI * Vinf) in
  let r1 := t + sqrt (t ^ 2 - cylinderRadius ^ 2) in
  let r2 := t - sqrt (t ^ 2 - cylinderRadius ^ 2) in
  0 < strength /\ 0 < t ^ 2 - cylinderRadius ^ 2 /\
  r1 * r2 = cylinderRadius ^ 2 /\
  r1 > cylinderRadius /\ cylinderRadius > r2 /\ r2 > 0.
Proof.
  intros Hv Hr Hc t r1 r2. pose proof four_pi_pos as H4.
  assert (Hq : 0 < 4 * PI * Vinf) by (apply Rmult_lt_0_compat; assumption).
  assert (Et : strength / (4 * PI * Vinf * cylinderRadius) = t / cylinderRadius).
  { unfold t. field. split; lra. }
  rewrite Et in Hc.
  assert (Htr : cylinderRadius < t).
  { apply (Rmult_lt_compat_r cylinderRadius) in Hc; [| assumption].
    unfold Rdiv in Hc. rewrite Rmult_assoc, Rinv_l in Hc; lra. }
  assert (Hs : 0 < strength).
  { replace strength with (t * (4 * PI * Vinf)) by (unfold t; field; lra).
    apply Rmult_lt_0_compat; lra. }
  assert (Hd : 0 < t ^ 2 - cylinderRadius ^ 2) by nra.
  pose proof (sqrt_lt_R0 _ Hd) as Hq0.
  pose proof (sqrt_sqrt (t ^ 2 - cylinderRadius ^ 2) ltac:(lra)) as Hq2.
  assert (P : r1 * r2 = cylinderRadius ^ 2).
  { unfold r1, r2.
    set (q := sqrt (t ^ 2 - cylinderRadius ^ 2)) in *.
    replace ((t + q) * (t - q)) with (t ^ 2 - q * q) by ring. lra. }
  assert (G1 : r1 > cylinderRadius) by (unfold r1; lra).
  assert (G2 : r2 > 0).
  { unfold r2. set (q := sqrt (t ^ 2 - cylinderRadius ^ 2)) in *. nra. }
  repeat split; try assumption.
  fold r1 r2 in P, G1, G2 |- *. nra.
Qed.




(** C10.  When [condition > 1] (with [Vinf > 0], [cylinderRadius > 0]) the
    circulation is positive, the argument of the square root is positive, and
    the two radii [r1], [r2] the call returns satisfy [r1 * r2 = R^2] and
    [r1 > R > r2 > 0]: exactly one of the two reported points lies strictly
    inside the body. *)
Theorem off_surface_radii_straddle_body
  (Lx Ly : R * R) (Vinf cylinderRadius strength : R) :
  valid_extents Lx Ly -> 0 < Vinf -> 0 < cylinderRadius ->
  strength / (4 * PI * Vinf * cylinderRadius) > 1 ->
  let t := strength / (4 * PI * Vinf) in
  exists sol r1 r2,
    Cyl.plotRotatingCylinder Lx Ly Vinf cylinderRadius strength = Ok sol /\
    Cyl.rStag (Cyl.sol_stag sol) = [r1; r2] /\
    r1 = t + sqrt (t ^ 2 - cylinderRadius ^ 2) /\
    r2 = t - sqrt (t ^ 2 - cylinderRadius ^ 2) /\
    0 < strength /\ 0 < t ^ 2 - cylinderRadius ^ 2 /\
    r1 * r2 = cylinderRadius ^ 2 /\
    r1 > cylinderRadius /\ cylinderRadius > r2 /\ r2 > 0.
Proof.
  intros He Hv Hr Hc t.
  destruct (plot_returns Lx Ly Vinf cylinderRadius strength He Hv Hr)
    as [sol [E [_ [_ [Est _]]]]].
  destruct (stagnation_returns Vinf cylinderRadius strength Hv Hr)
    as [st' [Est' [_ [_ [_ Hgt]]]]].
  rewrite Est in Est'. injection Est' as <-.
  destruct (Hgt Hc) as [_ Hrs]. fold t in Hrs.
  exists sol, (t + sqrt (t ^ 2 - cylinderRadius ^ 2)),
         (t - sqrt (t ^ 2 - cylinderRadius ^ 2)).
  split; [exact E |]. split; [exact Hrs |].
  split; [reflexivity |]. split; [reflexivity |].
  exact (off_surface_radii Vinf cylinderRadius strength Hv Hr Hc).
Qed.

Lemma off_surface_radii_straddle_body_witness :
  exists sol r1 r2,
    Cyl.plotRotatingCylinder (-5, 5) (-5, 5) 1 1 (8 * PI) = Ok sol /\
    Cyl.rStag (Cyl.sol_stag sol) = [r1; r2] /\
    r1 = 8 * PI / (4 * PI * 1) + sqrt ((8 * PI / (4 * PI * 1)) ^ 2 - 1 ^ 2) /\
    r2 = 8 * PI / (4 * PI * 1) - sqrt ((8 * PI / (4 * PI * 1)) ^ 2 - 1 ^ 2) /\
    0 < 8 * PI /\ 0 < (8 * PI / (4 * PI * 1)) ^ 2 - 1 ^ 2 /\
    r1 * r2 = 1 ^ 2 /\ r1 > 1 /\ 1 > r2 /\ r2 > 0.
Proof.
  apply (off_surface_radii_straddle_body (-5, 5) (-5, 5) 1 1 (8 * PI)).
  - unfold valid_extents; simpl; lra.
  - lra.
  - lra.
  - pose proof PI_RGT_0.
    replace (8 * PI / (4 * PI * 1 * 1)) with 2 by (field; lra). lra.
Defined.

(** ** [np.linspace] *)

Lemma linspace_length (a b : R) (n : nat) :
  List.length (Np.linspace a b n) = n.
Proof. unfold Np.linspace. now rewrite length_map, length_seq. Qed.

Lemma linspace_nth (a b : R) (n i : nat) :
  (i < n)%nat ->
  nth_error (Np.linspace a b n) i =
  Some (a + INR i * ((b - a) / INR (n - 1))).
Proof.
  intros Hi. unfold Np.linspace.
  rewrite nth_error_map, nth_error_seq.
  destruct (Nat.ltb_spec i n) as [_ | Hge]; [reflexivity | lia].
Qed.

Lemma linspace_first (a b : R) (n : nat) :
  (1 <= n)%nat -> nth_error (Np.linspace a b n) 0 = Some a.
Proof.
  intros Hn. rewrite linspace_nth by lia. f_equal. simpl. ring.
Qed.

Lemma linspace_last (a b : R) (n : nat) :
  (2 <= n)%nat -> nth_error (Np.linspace a b n) (n - 1) = Some b.
Proof.
  intros Hn. rewrite linspace_nth by lia. f_equal.
  assert (INR (n - 1) <> 0) by (apply not_0_INR; lia).
  field. assumption.
Qed.

Lemma linspace_bounds (a b : R) (n : nat) :
  a <= b -> (2 <= n)%nat ->
  Forall (fun t => a <= t <= b) (Np.linspace a b n).
Proof.
  intros Hab Hn. apply Forall_forall. intros t Ht.
  unfold Np.linspace in Ht. apply in_map_iff in Ht.
  destruct Ht as [i [<- Hi]]. apply in_seq in Hi.
  assert (Hm : 0 < INR (n - 1)) by (apply lt_0_INR; lia).
  assert (Hi0 : 0 <= INR i) by apply pos_INR.
  assert (Him : INR i <= INR (n - 1)) by (apply le_INR; lia).
  set (m := INR (n - 1)) in *. set (q := (b - a) / m).
  assert (Hq : q * m = b - a) by (unfold q; field; lra).
  assert (Hq0 : 0 <= q).
  { unfold q. apply Rmult_le_pos; [lra |]. left. now apply Rinv_0_lt_compat. }
  split; nra.
Qed.

(** ** The body surface *)

(** C8, as the code has it.  The surface angles are [n] equally spaced values
    [i * 2 pi/(n-1)], [i = 0 .. n-1]; they lie in the closed interval
    [[0, 2 pi]], the first is [0] and the last is [2 pi] itself, so the
    contour closes; every sample is taken at radius [cylinderRadius].  The
    solver takes [n = 250], and a call that returns hands out exactly these
    250 samples. *)
Theorem surface_angles_closed_interval (n : nat) :
  (2 <= n)%nat ->
  List.length (Cyl.thetaS n) = n /\
  (forall i, (i < n)%nat ->
     nth_error (Cyl.thetaS n) i = Some (INR i * (2 * PI / INR (n - 1)))) /\
  Forall (fun th => 0 <= th <= 2 * PI) (Cyl.thetaS n) /\
  nth_error (Cyl.thetaS n) 0 = Some 0 /\
  nth_error (Cyl.thetaS n) (n - 1) = Some (2 * PI) /\
  (forall Vinf cylinderRadius vortex,
     Forall (fun p => Cyl.s_r p = cylinderRadius)
       (map (Cyl.surface_point Vinf cylinderRadius vortex) (Cyl.thetaS n))) /\
  Cyl.surface_samples = 250%nat /\
  (forall Lx Ly Vinf cylinderRadius strength,
     valid_extents Lx Ly -> 0 < Vinf -> 0 < cylinderRadius ->
     exists sol,
       Cyl.plotRotatingCylinder Lx Ly Vinf cylinderRadius strength = Ok sol /\
       map Cyl.s_theta (Cyl.sol_surface sol) = Cyl.thetaS Cyl.surface_samples).
Proof.
  intros Hn. unfold Cyl.thetaS.
  split; [apply linspace_length |].
  split.
  { intros i Hi. rewrite linspace_nth by assumption. f_equal.
    unfold Rdiv. ring. }
  split; [apply linspace_bounds; [pose proof PI_RGT_0; lra | assumption] |].
  split; [apply linspace_first; lia |].
  split; [apply linspace_last; assumption |].
  split.
  { intros Vinf cR vortex. apply Forall_map. apply Forall_forall.
    intros th _. cbn. ring. }
  split; [reflexivity |].
  intros Lx Ly Vinf cR strength He Hv Hr.
  destruct (plot_returns Lx Ly Vinf cR strength He Hv Hr) as [sol [E [_ [Es _]]]].
  exists sol. split; [exact E |].
  rewrite Es, map_map. unfold Cyl.thetaS.
  rewrite <- (map_id (Np.linspace 0 (2 * PI) Cyl.surface_samples)) at 2.
  apply map_ext. intros th. reflexivity.
Qed.

Lemma surface_angles_closed_interval_witness :
  nth_error (Cyl.thetaS 3) (3 - 1) = Some (2 * PI).
Proof.
  apply (surface_angles_closed_interval 3). lia.
Defined.

(** C8, as the claim has it, fails: the last of the 250 surface angles is
    [2 pi], which is not below [2 pi]. *)
Lemma surface_angles_not_half_open :
  ~ (forall th, In th (Cyl.thetaS Cyl.surface_samples) -> 0 <= th < 2 * PI).
Proof.
  intros H.
  assert (Hin : In (2 * PI) (Cyl.thetaS Cyl.surface_samples)).
  { apply (nth_error_In _ (Cyl.surface_samples - 1)).
    unfold Cyl.thetaS. apply linspace_last. unfold Cyl.surface_samples. lia. }
  apply H in Hin. lra.
Qed.

(** On the surface of a non-rotating cylinder the pressure coefficient is
    [1 - 4 sin^2 theta]. *)
Lemma surface_Cp_no_circulation (Vinf cylinderRadius th : R) :
  0 < Vinf -> 0 < cylinderRadius ->
  Cyl.s_Cp (Cyl.surface_point Vinf cylinderRadius 0 th) = 1 - 4 * sin th ^ 2.
Proof.
  intros Hv Hr. unfold Cyl.surface_point. cbn [Cyl.s_Cp].
  rewrite sqrt_sqrt by (apply Rplus_le_le_0_compat; apply Rle_0_sqr).
  field. lra.
Qed.

(** C9.  Without circulation the surface pressure coefficient
    [Cp(theta) = 1 - Vmag(R, theta)^2 / Vinf^2] is symmetric about the
    x-axis: [Cp(theta) = Cp(-theta) = Cp(2 pi - theta)]. *)
Theorem surface_Cp_symmetric (Vinf cylinderRadius theta : R) :
  0 < Vinf -> 0 < cylinderRadius ->
  exists vortex,
    py_div 0 (2 * PI * cylinderRadius) = Ok vortex /\
    let at_angle := Cyl.surface_point Vinf cylinderRadius vortex in
    let Cp := fun th => Cyl.s_Cp (at_angle th) in
    (forall th, Cp th = 1 - Cyl.s_Vmag (at_angle th) ^ 2 / Vinf ^ 2) /\
    Cp theta = Cp (- theta) /\
    Cp theta = Cp (2 * PI - theta).
Proof.
  intros Hv Hr. exists 0. split.
  - rewrite py_div_ok
      by (pose proof two_pi_pos; apply Rmult_integral_contrapositive_currified; lra).
    f_equal. unfold Rdiv. ring.
  - cbv zeta. split; [| split].
    + intros th. unfold Cyl.surface_point. cbn [Cyl.s_Cp Cyl.s_Vmag].
      field. lra.
    + rewrite !surface_Cp_no_circulation by assumption.
      rewrite sin_neg. ring.
    + rewrite !surface_Cp_no_circulation by assumption.
      rewrite sin_minus, cos_2PI, sin_2PI. ring.
Qed.

Lemma surface_Cp_symmetric_witness :
  exists vortex,
    py_div 0 (2 * PI * 1) = Ok vortex /\
    let at_angle := Cyl.surface_point 1 1 vortex in
    let Cp := fun th => Cyl.s_Cp (at_angle th) in
    (forall th, Cp th = 1 - Cyl.s_Vmag (at_angle th) ^ 2 / 1 ^ 2) /\
    Cp (PI / 3) = Cp (- (PI / 3)) /\
    Cp (PI / 3) = Cp (2 * PI - PI / 3).
Proof.
  apply (surface_Cp_symmetric 1 1 (PI / 3)); lra.
Defined.

(** ** The grid *)

Lemma on_mesh_at2 {A : Type} (f : R -> R -> A) (xs ys : list R)
  (i j : nat) (x y : R) :
  nth_error xs j = Some x -> nth_error ys i = Some y ->
  Np.at2 (Np.on_mesh f xs ys) i j = Some (f x y).
Proof.
  intros Hx Hy. unfold Np.at2, Np.on_mesh.
  rewrite nth_error_map, Hy. cbn [option_map].
  rewrite nth_error_map, Hx. reflexivity.
Qed.

(** The code's polar formulas agree with the closed forms wherever [r > 0]. *)
Lemma node_closed_forms (Vinf Rc Gamma r theta : R) :
  0 < r ->
  Cyl.Vr Vinf Rc r theta = Closed.Vr Vinf Rc r theta /\
  Cyl.Vtheta Vinf Rc Gamma r theta = Closed.Vtheta Vinf Rc Gamma r theta /\
  Cyl.phi Vinf Rc Gamma r theta = Closed.phi Vinf Rc Gamma r theta /\
  Cyl.psi Vinf Rc Gamma r theta = Closed.psi Vinf Rc Gamma r theta.
Proof.
  intros Hr. pose proof PI_RGT_0 as Hpi.
  unfold Cyl.Vr, Cyl.Vtheta, Cyl.phi, Cyl.psi,
    Closed.Vr, Closed.Vtheta, Closed.phi, Closed.psi.
  repeat split; field; lra.
Qed.

(** C1.  For a valid input, the entry [[i][j]] of each grid array is the
    closed form evaluated at the mesh node [x = x_j], [y = y_i], whenever
    [r = sqrt(x^2 + y^2) > 0], with [theta = atan2(y, x)]; the stream
    function is included for a positive radius.  A call with positive speed
    and radius returns this grid. *)
Theorem grid_fields_closed_forms
  (Lx Ly : R * R) (Vinf Rc Gamma : R) (i j : nat) :
  valid_input Lx Ly Vinf Rc ->
  (i < Cyl.grid_points)%nat -> (j < Cyl.grid_points)%nat ->
  let x := fst Lx + INR j * ((snd Lx - fst Lx) / INR (Cyl.grid_points - 1)) in
  let y := fst Ly + INR i * ((snd Ly - fst Ly) / INR (Cyl.grid_points - 1)) in
  let r := sqrt (x ^ 2 + y ^ 2) in
  let theta := Np.arctan2 y x in
  0 < r ->
  (exists nd,
     Np.at2 (Cyl.grid Lx Ly Vinf Rc Gamma) i j = Some nd /\
     Cyl.n_Vr nd = Closed.Vr Vinf Rc r theta /\
     Cyl.n_Vtheta nd = Closed.Vtheta Vinf Rc Gamma r theta /\
     Cyl.n_Vmag nd = sqrt (Cyl.n_Vr nd ^ 2 + Cyl.n_Vtheta nd ^ 2) /\
     Cyl.n_Vx nd = Cyl.n_Vr nd * cos theta - Cyl.n_Vtheta nd * sin theta /\
     Cyl.n_Vy nd = Cyl.n_Vr nd * sin theta + Cyl.n_Vtheta nd * cos theta /\
     Cyl.n_phi nd = Closed.phi Vinf Rc Gamma r theta /\
     (0 < Rc -> Cyl.n_psi nd = Closed.psi Vinf Rc Gamma r theta)) /\
  (0 < Vinf -> 0 < Rc ->
   exists sol,
     Cyl.plotRotatingCylinder Lx Ly Vinf Rc Gamma = Ok sol /\
     Cyl.sol_grid sol = Cyl.grid Lx Ly Vinf Rc Gamma).
Proof.
  intros Hvalid Hi Hj x y r theta Hr. split.
  - exists (Cyl.node Vinf Rc Gamma x y). split.
    + unfold Cyl.grid. apply on_mesh_at2; apply linspace_nth; assumption.
    + assert (Er : Cyl.r_at x y = r).
      { unfold Cyl.r_at, r. f_equal. ring. }
      unfold Cyl.node. rewrite Er. fold theta.
      change (Cyl.theta_at x y) with theta.
      cbn [Cyl.n_Vr Cyl.n_Vtheta Cyl.n_Vmag Cyl.n_Vx Cyl.n_Vy Cyl.n_phi Cyl.n_psi].
      destruct (node_closed_forms Vinf Rc Gamma r theta Hr) as [E1 [E2 [E3 E4]]].
      repeat split; try assumption; try reflexivity;
        [unfold Cyl.Vmag; f_equal; ring | intros _; exact E4].
  - intros Hv HR.
    destruct (plot_returns Lx Ly Vinf Rc Gamma (proj1 Hvalid) Hv HR)
      as [sol [E [Eg _]]].
    exists sol. split; assumption.
Qed.

Lemma grid_fields_closed_forms_witness :
  exists nd r theta,
    0 < r /\
    Np.at2 (Cyl.grid (-5, 5) (-5, 5) 1 1 0) 0 0 = Some nd /\
    Cyl.n_Vr nd = Closed.Vr 1 1 r theta /\
    Cyl.n_Vtheta nd = Closed.Vtheta 1 1 0 r theta.
Proof.
  assert (Hv : valid_input (-5, 5) (-5, 5) 1 1)
    by (unfold valid_input, valid_extents; simpl; lra).
  assert (H0 : (0 < Cyl.grid_points)%nat) by (unfold Cyl.grid_points; lia).
  pose proof (grid_fields_closed_forms (-5, 5) (-5, 5) 1 1 0 0 0 Hv H0 H0) as H.
  cbv zeta in H.
  match type of H with
  | ?P -> _ => assert (Hr : P)
  end.
  { apply sqrt_lt_R0. simpl. nra. }
  destruct (H Hr) as [[nd [E1 [E2 [E3 _]]]] _].
  exists nd. eexists. eexists.
  split; [exact Hr |]. split; [exact E1 |]. split; [exact E2 | exact E3].
Defined.

(** ** The aggregator *)

Lemma Rsum_app (l m : list R) : Rsum (l ++ m) = Rsum l + Rsum m.
Proof.
  unfold Rsum. induction l as [| a l IH]; simpl; [ring | rewrite IH; ring].
Qed.

Lemma uniform_u_sum_snoc (seen : list Field.FlowElement) (o : Field.FlowElement) :
  uniform_u_sum (seen ++ [o]) =
  if Field.is_uniform o then uniform_u_sum seen + Field.u o
  else uniform_u_sum seen.
Proof.
  unfold uniform_u_sum. rewrite filter_app, map_app, Rsum_app. simpl.
  destruct (Field.is_uniform o); simpl; ring.
Qed.

Lemma uniform_v_sum_snoc (seen : list Field.FlowElement) (o : Field.FlowElement) :
  uniform_v_sum (seen ++ [o]) =
  if Field.is_uniform o then uniform_v_sum seen + Field.v o
  else uniform_v_sum seen.
Proof.
  unfold uniform_v_sum. rewrite filter_app, map_app, Rsum_app. simpl.
  destruct (Field.is_uniform o); simpl; ring.
Qed.

(** What the loop maintains after the elements [seen]. *)
Definition freestream_inv (seen : list Field.FlowElement) (a : Field.Acc) : Prop :=
  Field.u_cumulative a = uniform_u_sum seen /\
  Field.v_cumulative a = uniform_v_sum seen /\
  Field.V2_infty a = freestream_speed2 seen.

Lemma freestream_inv_init (points : list Field.point) :
  freestream_inv [] (Field.init points).
Proof.
  unfold freestream_inv, freestream_speed2, one_if_zero, uniform_u_sum,
    uniform_v_sum.
  cbn [filter map Rsum fold_right Field.init Field.u_cumulative
       Field.v_cumulative Field.V2_infty].
  destruct (Req_dec_T (0 ^ 2 + 0 ^ 2) 0) as [_ | N].
  - repeat split; reflexivity.
  - exfalso. apply N. ring.
Qed.

Lemma freestream_inv_step (points : list Field.point)
  (seen : list Field.FlowElement) (a : Field.Acc) (o : Field.FlowElement) :
  freestream_inv seen a -> freestream_inv (seen ++ [o]) (Field.step points a o).
Proof.
  intros [Hu [Hv H2]]. unfold freestream_inv, freestream_speed2.
  rewrite uniform_u_sum_snoc, uniform_v_sum_snoc.
  unfold Field.step. cbn [Field.u_cumulative Field.v_cumulative Field.V2_infty].
  destruct (Field.is_uniform o).
  - rewrite Hu, Hv. unfold one_if_zero. auto.
  - rewrite Hu, Hv, H2. auto.
Qed.

Lemma freestream_inv_loop (points : list Field.point)
  (l seen : list Field.FlowElement) (a : Field.Acc) :
  freestream_inv seen a ->
  freestream_inv (seen ++ l) (fold_left (Field.step points) l a).
Proof.
  revert seen a. induction l as [| o l IH]; intros seen a Ha.
  - rewrite app_nil_r. exact Ha.
  - cbn [fold_left].
    replace (seen ++ o :: l) with ((seen ++ [o]) ++ l)
      by (rewrite <- app_assoc; reflexivity).
    apply IH. now apply freestream_inv_step.
Qed.

(** The pressure coefficient held by an accumulator agrees with its own
    velocities and free-stream speed. *)
Definition Cp_consistent (a : Field.Acc) : Prop :=
  Field.Cp a =
  Some (Np.zip_with
          (fun xv yv => 1 - (xv ^ 2 + yv ^ 2) / Field.V2_infty a)
          (Field.x_vels a) (Field.y_vels a)).

Lemma map_zip_with_map {A B : Type} (f : R -> B) (g h : A -> R) (l m : list A) :
  map f (Np.zip_with Rplus (map g l) (map h m)) =
  Np.zip_with (fun a b => f (g a + h b)) l m.
Proof.
  revert m. induction l as [| a l IH]; intros [| b m]; simpl;
    try reflexivity. now rewrite IH.
Qed.

Lemma Cp_consistent_step (points : list Field.point)
  (a : Field.Acc) (o : Field.FlowElement) :
  Cp_consistent (Field.step points a o).
Proof.
  unfold Cp_consistent, Field.step.
  cbn [Field.Cp Field.x_vels Field.y_vels Field.V2_infty].
  now rewrite map_zip_with_map.
Qed.

Lemma Cp_consistent_loop (points : list Field.point)
  (l : list Field.FlowElement) (a : Field.Acc) :
  Cp_consistent a -> Cp_consistent (fold_left (Field.step points) l a).
Proof.
  revert a. induction l as [| o l IH]; intros a Ha; [exact Ha |].
  cbn [fold_left]. apply IH. apply Cp_consistent_step.
Qed.

Lemma one_if_zero_nonzero (s : R) : one_if_zero s <> 0.
Proof.
  unfold one_if_zero. destruct (Req_dec_T s 0); [lra | assumption].
Qed.

(** C6.  For a non-empty collection [draw] returns an aggregate whose
    free-stream speed squared is (sum of [u] over the Uniform elements)^2 +
    (sum of [v] over the Uniform elements)^2, with 1 substituted when that is
    exactly zero; it is never zero, and it is the denominator of the
    [Cp = 1 - (u^2 + v^2)/Vinf^2] that the aggregate holds. *)
Theorem freestream_normalisation
  (objects : list (string * Field.FlowElement)) (x_points y_points : list R) :
  objects <> [] ->
  exists a,
    Field.draw objects x_points y_points = Some a /\
    Field.V2_infty a =
      one_if_zero (uniform_u_sum (map snd objects) ^ 2
                   + uniform_v_sum (map snd objects) ^ 2) /\
    Field.V2_infty a <> 0 /\
    Field.Cp a =
      Some (Np.zip_with
              (fun xv yv => 1 - (xv ^ 2 + yv ^ 2) / Field.V2_infty a)
              (Field.x_vels a) (Field.y_vels a)).
Proof.
  intros Hne. unfold Field.draw.
  destruct objects as [| [name o] rest]; [contradiction |].
  cbn [List.length Nat.eqb map snd fold_left].
  set (points := Field.mesh_points x_points y_points).
  eexists. split; [reflexivity |].
  pose proof (freestream_inv_loop points (o :: map snd rest) []
                (Field.init points) (freestream_inv_init points)) as [_ [_ H2]].
  cbn [app fold_left] in H2.
  split; [exact H2 |].
  split.
  - rewrite H2. apply one_if_zero_nonzero.
  - apply Cp_consistent_loop. apply Cp_consistent_step.
Qed.

Lemma freestream_normalisation_witness :
  exists a,
    Field.draw [("stream"%string, Field.Uniform 3 4)] [0; 1] [0] = Some a /\
    Field.V2_infty a <> 0.
Proof.
  destruct (freestream_normalisation
              [("stream"%string, Field.Uniform 3 4)] [0; 1] [0])
    as [a [E [_ [N _]]]]; [discriminate |].
  exists a. split; assumption.
Defined.

Lemma zip_with_map_same {A : Type} (g h : A -> R) (l : list A) :
  Np.zip_with Rplus (map g l) (map h l) = map (fun a => g a + h a) l.
Proof.
  induction l as [| a l IH]; simpl; [reflexivity | now rewrite IH].
Qed.

(** What [draw] returns for a collection of one Uniform element. *)
Lemma draw_single_uniform (name : string) (U V : R) (x_points y_points : list R) :
  let points := Field.mesh_points x_points y_points in
  exists a,
    Field.draw [(name, Field.Uniform U V)] x_points y_points = Some a /\
    Field.x_vels a = map (fun _ => U) points /\
    Field.y_vels a = map (fun _ => V) points /\
    Field.V2_infty a = one_if_zero (U ^ 2 + V ^ 2) /\
    Field.Cp a =
      Some (map (fun _ => 1 - (U ^ 2 + V ^ 2) / one_if_zero (U ^ 2 + V ^ 2))
              points).
Proof.
  intros points. unfold Field.draw.
  cbn [List.length Nat.eqb map snd fold_left]. fold points.
  eexists. split; [reflexivity |].
  unfold Field.step, Field.init.
  cbn [Field.x_vels Field.y_vels Field.potential Field.streamfunction
       Field.u_cumulative Field.v_cumulative Field.V2_infty Field.Cp].
  assert (Eu : Field.is_uniform (Field.Uniform U V) = true) by reflexivity.
  rewrite Eu.
  cbn [Field.Uniform Field.get_x_velocity_at Field.get_y_velocity_at
       Field.u Field.v Elements.uniform fst snd].
  rewrite !zip_with_map_same.
  assert (Ex : map (fun _ : Field.point => 0 + U) points = map (fun _ => U) points)
    by (apply map_ext; intros; ring).
  assert (Ey : map (fun _ : Field.point => 0 + V) points = map (fun _ => V) points)
    by (apply map_ext; intros; ring).
  rewrite Ex, Ey, !map_map, zip_with_map_same, map_map.
  replace ((0 + U) ^ 2 + (0 + V) ^ 2) with (U ^ 2 + V ^ 2) by ring.
  repeat split; reflexivity.
Qed.

(** C7, as the code has it.  For a collection of exactly one Uniform element
    [(U, V)] the aggregated velocity is [(U, V)] at every query point; the
    aggregated [Cp] is 0 at every query point when the stream is not at rest,
    and 1 at every query point when [U = V = 0], where the fallback
    denominator 1 is used. *)
Theorem single_uniform_aggregate
  (name : string) (U V : R) (x_points y_points : list R) :
  let points := Field.mesh_points x_points y_points in
  exists a,
    Field.draw [(name, Field.Uniform U V)] x_points y_points = Some a /\
    Field.x_vels a = map (fun _ => U) points /\
    Field.y_vels a = map (fun _ => V) points /\
    (U <> 0 \/ V <> 0 -> Field.Cp a = Some (map (fun _ => 0) points)) /\
    (U = 0 /\ V = 0 -> Field.Cp a = Some (map (fun _ => 1) points)).
Proof.
  intros points.
  destruct (draw_single_uniform name U V x_points y_points)
    as [a [E [Hx [Hy [_ Hc]]]]].
  fold points in Hx, Hy, Hc.
  exists a. split; [exact E |]. split; [exact Hx |]. split; [exact Hy |].
  split.
  - intros Hnz. rewrite Hc. f_equal. apply map_ext. intros _.
    assert (Hs : U ^ 2 + V ^ 2 <> 0) by (destruct Hnz; nra).
    unfold one_if_zero. destruct (Req_dec_T (U ^ 2 + V ^ 2) 0); [contradiction |].
    field. assumption.
  - intros [HU HV]. rewrite Hc. f_equal. apply map_ext. intros _. subst.
    unfold one_if_zero.
    destruct (Req_dec_T (0 ^ 2 + 0 ^ 2) 0) as [_ | N]; [field | exfalso; apply N; ring].
Qed.

(** C7, as the claim has it, fails for the stream at rest: one Uniform
    element [(0, 0)], one query point; the aggregated [Cp] there is 1,
    not 0. *)
Lemma single_uniform_at_rest_Cp_not_zero :
  exists a,
    Field.draw [("stream"%string, Field.Uniform 0 0)] [0] [0] = Some a /\
    Field.Cp a = Some [1] /\
    Field.Cp a <> Some [0].
Proof.
  destruct (draw_single_uniform "stream" 0 0 [0] [0])
    as [a [E [_ [_ [_ Hc]]]]].
  exists a. split; [exact E |].
  assert (H1 : Field.Cp a = Some [1]).
  { rewrite Hc. cbn [Field.mesh_points Np.on_mesh map List.concat app].
    do 2 f_equal. unfold one_if_zero.
    destruct (Req_dec_T (0 ^ 2 + 0 ^ 2) 0) as [_ | N];
      [field | exfalso; apply N; ring]. }
  split; [exact H1 |].
  rewrite H1. intros H. injection H as H. lra.
Qed.

(** ** Polar coordinates *)

Lemma hypot_factor (x y : R) :
  x <> 0 -> sqrt (x * x + y * y) = Rabs x * sqrt (1 + (y / x)²).
Proof.
  intros Hx.
  assert (Hs : 0 <= 1 + (y / x)²) by (pose proof (Rle_0_sqr (y / x)); lra).
  apply sqrt_lem_1.
  - pose proof (Rle_0_sqr x) as H1. pose proof (Rle_0_sqr y) as H2.
    unfold Rsqr in H1, H2. lra.
  - apply Rmult_le_pos; [apply Rabs_pos | apply sqrt_pos].
  - replace (Rabs x * sqrt (1 + (y / x)²) * (Rabs x * sqrt (1 + (y / x)²)))
      with ((Rabs x * Rabs x) * (sqrt (1 + (y / x)²) * sqrt (1 + (y / x)²)))
      by ring.
    rewrite sqrt_sqrt by assumption.
    replace (Rabs x * Rabs x) with (x * x).
    + unfold Rsqr. field. assumption.
    + unfold Rabs. destruct (Rcase_abs x); ring.
Qed.

(** [np.arctan2(y, x)] is the polar angle of [(x, y)]. *)
Lemma arctan2_polar (x y : R) :
  0 < sqrt (x * x + y * y) ->
  sqrt (x * x + y * y) * cos (Np.arctan2 y x) = x /\
  sqrt (x * x + y * y) * sin (Np.arctan2 y x) = y.
Proof.
  intros Hr. unfold Np.arctan2.
  assert (Hs : 0 < sqrt (1 + (y / x)²)).
  { apply sqrt_lt_R0. pose proof (Rle_0_sqr (y / x)). lra. }
  destruct (Rlt_dec 0 x) as [Hpos | Hnpos].
  - rewrite hypot_factor by lra. rewrite Rabs_pos_eq by lra.
    rewrite cos_atan, sin_atan. split; field; lra.
  - destruct (Rlt_dec x 0) as [Hneg | Hnneg].
    + rewrite hypot_factor by lra. rewrite Rabs_left by assumption.
      destruct (Rle_dec 0 y).
      * rewrite neg_cos, neg_sin, cos_atan, sin_atan. split; field; lra.
      * rewrite cos_minus, sin_minus, cos_PI, sin_PI, cos_atan, sin_atan.
        split; field; lra.
    + assert (Hx : x = 0) by lra. subst x.
      replace (0 * 0 + y * y) with (y * y) in * by ring.
      destruct (Rlt_dec 0 y) as [Hy | Hny].
      * rewrite sqrt_square by lra. rewrite cos_PI2, sin_PI2. split; ring.
      * destruct (Rlt_dec y 0) as [Hy' | Hny'].
        -- replace (y * y) with ((- y) * (- y)) by ring.
           rewrite sqrt_square by lra.
           rewrite cos_neg, sin_neg, cos_PI2, sin_PI2. split; ring.
        -- assert (y = 0) by lra. subst y.
           rewrite Rmult_0_r, sqrt_0 in Hr. lra.
Qed.

(** ** The Cylinder element *)

(** The contribution of the Cylinder element, compared with the solver
    without circulation and with a uniform stream plus a doublet. *)
Lemma cylinder_contribution (c : Preset.PresetCylinder) (x y : R) :
  let Vinf := Preset.Vinfty c in
  let Rc := Preset.radius c in
  let dx := x - Preset.x0 c in
  let dy := y - Preset.y0 c in
  let r := sqrt (dx ^ 2 + dy ^ 2) in
  0 < r ->
  exists du dv dphi dpsi,
    Preset.calculate_contribution c x y = (du, dv, dphi, dpsi) /\
    (let nd := Cyl.node Vinf Rc 0 dx dy in
     du = Cyl.n_Vx nd /\ dv = Cyl.n_Vy nd /\ dphi = Cyl.n_phi nd /\
     Cyl.n_psi nd = dpsi + 0 / (2 * PI) * ln (r / Rc)) /\
    (exists u v p q,
       Elements.add4 (Elements.uniform Vinf 0 x y)
         (Elements.doublet (2 * PI * Vinf * Rc ^ 2) 0
            (Preset.x0 c) (Preset.y0 c) x y) = (u, v, p, q) /\
       du = u /\ dv = v /\
       dphi = p - Vinf * Preset.x0 c /\
       dpsi = q - Vinf * Preset.y0 c).
Proof.
  intros Vinf Rc dx dy r Hr. pose proof PI_RGT_0 as Hpi.
  assert (Er : sqrt (dx * dx + dy * dy) = r) by (unfold r; f_equal; ring).
  destruct (arctan2_polar dx dy) as [Hc Hs]; [rewrite Er; exact Hr |].
  rewrite Er in Hc, Hs.
  pose proof (sin2_cos2 (Np.arctan2 dy dx)) as Hsc. unfold Rsqr in Hsc.
  unfold Preset.calculate_contribution, Elements.doublet, Elements.uniform,
    Elements.add4, Cyl.node, Cyl.r_at, Cyl.theta_at.
  fold Vinf Rc dx dy. rewrite Er. fold r.
  cbn [Cyl.n_Vx Cyl.n_Vy Cyl.n_phi Cyl.n_psi].
  unfold Cyl.Vx, Cyl.Vy, Cyl.Vr, Cyl.Vtheta, Cyl.phi, Cyl.psi.
  rewrite Rminus_0_r.
  set (theta := Np.arctan2 dy dx) in *.
  set (ct := cos theta) in *. set (st := sin theta) in *.
  unfold dx in Hc. unfold dy in Hs.
  clearbody ct st theta r.
  do 4 eexists. split; [reflexivity |].
  split; [| do 4 eexists; split; [reflexivity |]].
  - cbv zeta. repeat split; field; lra.
  - repeat split; apply Rminus_diag_uniq.
    + match goal with
      | |- ?A - ?B = 0 =>
          replace (A - B) with (Vinf * (st * st + ct * ct - 1)) by (field; lra)
      end.
      rewrite Hsc. ring.
    + match goal with
      | |- ?A - ?B = 0 => replace (A - B) with 0 by (field; lra)
      end.
      reflexivity.
    + match goal with
      | |- ?A - ?B = 0 =>
          replace (A - B) with (Vinf * (r * ct - (x - Preset.x0 c)))
            by (field; lra)
      end.
      rewrite Hc. ring.
    + match goal with
      | |- ?A - ?B = 0 =>
          replace (A - B) with (Vinf * (r * st - (y - Preset.y0 c)))
            by (field; lra)
      end.
      rewrite Hs. ring.
Qed.

(** C5, as the code has it.  At every query point other than the centre,
    the Cylinder element's [(du, dv, dphi, dpsi)] equals the solver's grid
    fields [(Vx, Vy, phi, psi)] without circulation at the point translated
    by [(x0, y0)] ([psi] up to the vortex term [0/(2 pi) * ln(r/R)]).
    Against a uniform stream [(Vinf, 0)] plus a doublet of strength
    [2 pi Vinf R^2] at [(x0, y0)] with [alpha = 0], the velocities [du], [dv]
    are equal, while [dphi] and [dpsi] are smaller by the constants
    [Vinf * x0] and [Vinf * y0]: the element measures its potential and
    stream function from its own centre. *)
Theorem cylinder_element_refines
  (c : Preset.PresetCylinder) (x y : R) :
  0 <= Preset.Vinfty c -> 0 <= Preset.radius c ->
  let Vinf := Preset.Vinfty c in
  let Rc := Preset.radius c in
  let dx := x - Preset.x0 c in
  let dy := y - Preset.y0 c in
  let r := sqrt (dx ^ 2 + dy ^ 2) in
  0 < r ->
  exists du dv dphi dpsi,
    Preset.calculate_contribution c x y = (du, dv, dphi, dpsi) /\
    (let nd := Cyl.node Vinf Rc 0 dx dy in
     du = Cyl.n_Vx nd /\ dv = Cyl.n_Vy nd /\ dphi = Cyl.n_phi nd /\
     Cyl.n_psi nd = dpsi + 0 / (2 * PI) * ln (r / Rc)) /\
    (exists u v p q,
       Elements.add4 (Elements.uniform Vinf 0 x y)
         (Elements.doublet (2 * PI * Vinf * Rc ^ 2) 0
            (Preset.x0 c) (Preset.y0 c) x y) = (u, v, p, q) /\
       du = u /\ dv = v /\
       dphi = p - Vinf * Preset.x0 c /\
       dpsi = q - Vinf * Preset.y0 c).
Proof.
  intros _ _. exact (cylinder_contribution c x y).
Qed.

Lemma cylinder_element_refines_witness :
  exists du dv dphi dpsi u v p q,
    Preset.calculate_contribution (Preset.mkPresetCylinder 1 1 (1, 0)) 3 0 =
      (du, dv, dphi, dpsi) /\
    Elements.add4 (Elements.uniform 1 0 3 0)
      (Elements.doublet (2 * PI * 1 * 1 ^ 2) 0 1 0 3 0) = (u, v, p, q) /\
    du = u /\ dv = v /\ dphi = p - 1 * 1 /\ dpsi = q - 1 * 0.
Proof.
  assert (Hr : 0 < sqrt ((3 - 1) ^ 2 + (0 - 0) ^ 2))
    by (apply sqrt_lt_R0; lra).
  destruct (cylinder_element_refines (Preset.mkPresetCylinder 1 1 (1, 0)) 3 0
              ltac:(simpl; lra) ltac:(simpl; lra) Hr)
    as [du [dv [dphi [dpsi [E [_ [u [v [p [q [E' [H1 [H2 [H3 H4]]]]]]]]]]]]]].
  exists du, dv, dphi, dpsi, u, v, p, q.
  repeat split; assumption.
Defined.

(** C5, as the claim has it, fails off the origin: for the element with
    [Vinf = 1], [R = 1] centred at [(1, 0)] and the query point [(3, 0)],
    [dphi] is 5/2, while the uniform stream plus doublet has potential 7/2
    there. *)
Lemma cylinder_off_origin_potential_differs :
  snd (fst (Preset.calculate_contribution
              (Preset.mkPresetCylinder 1 1 (1, 0)) 3 0)) = 5 / 2 /\
  snd (fst (Elements.add4 (Elements.uniform 1 0 3 0)
              (Elements.doublet (2 * PI * 1 * 1 ^ 2) 0 1 0 3 0))) = 7 / 2 /\
  Preset.calculate_contribution (Preset.mkPresetCylinder 1 1 (1, 0)) 3 0 <>
  Elements.add4 (Elements.uniform 1 0 3 0)
    (Elements.doublet (2 * PI * 1 * 1 ^ 2) 0 1 0 3 0).
Proof.
  pose proof PI_RGT_0 as Hpi.
  assert (Er : sqrt ((3 - 1) * (3 - 1) + (0 - 0) * (0 - 0)) = 2).
  { replace ((3 - 1) * (3 - 1) + (0 - 0) * (0 - 0)) with (2 * 2) by ring.
    apply sqrt_square. lra. }
  assert (Er' : sqrt ((3 - 1) ^ 2 + (0 - 0) ^ 2) = 2).
  { replace ((3 - 1) ^ 2 + (0 - 0) ^ 2) with (2 * 2) by ring.
    apply sqrt_square. lra. }
  destruct (arctan2_polar (3 - 1) (0 - 0)) as [Hc _]; [rewrite Er; lra |].
  rewrite Er in Hc.
  assert (Ec : cos (Np.arctan2 (0 - 0) (3 - 1)) = 1) by lra.
  assert (E1 : snd (fst (Preset.calculate_contribution
                           (Preset.mkPresetCylinder 1 1 (1, 0)) 3 0)) = 5 / 2).
  { unfold Preset.calculate_contribution.
    cbn [Preset.Vinfty Preset.radius Preset.x0 Preset.y0 Preset.position
         fst snd].
    rewrite Er, Ec. field. }
  assert (E2 : snd (fst (Elements.add4 (Elements.uniform 1 0 3 0)
                 (Elements.doublet (2 * PI * 1 * 1 ^ 2) 0 1 0 3 0))) = 7 / 2).
  { unfold Elements.add4, Elements.uniform, Elements.doublet.
    cbn [fst snd].
    rewrite Er', (Rminus_0_r (Np.arctan2 (0 - 0) (3 - 1))), Ec. field. lra. }
  split; [exact E1 |]. split; [exact E2 |].
  intros H. rewrite H in E1. lra.
Qed.

(** * Further properties of the cylinder solver *)

Lemma sin_wrap_negative (t : R) : sin (Cyl.wrap_negative t) = sin t.
Proof.
  unfold Cyl.wrap_negative. destruct (Rlt_dec t 0).
  - replace (t + 1 * 2 * PI) with (t + 2 * PI) by ring.
    rewrite sin_plus, sin_2PI, cos_2PI. ring.
  - f_equal. ring.
Qed.

Lemma cos_wrap_negative (t : R) : cos (Cyl.wrap_negative t) = cos t.
Proof.
  unfold Cyl.wrap_negative. destruct (Rlt_dec t 0).
  - replace (t + 1 * 2 * PI) with (t + 2 * PI) by ring.
    rewrite cos_plus, sin_2PI, cos_2PI. ring.
  - f_equal. ring.
Qed.

Lemma cos_three_half_pi : cos (3 * PI / 2) = 0.
Proof. replace (3 * PI / 2) with (3 * (PI / 2)) by field. apply cos_3PI2. Qed.

Lemma sin_three_half_pi : sin (3 * PI / 2) = -1.
Proof. replace (3 * PI / 2) with (3 * (PI / 2)) by field. apply sin_3PI2. Qed.

(** The Cartesian coordinates of the stagnation points are the polar ones
    converted entry by entry. *)
Lemma stagnation_xy (Vinf cylinderRadius strength : R) (st : Cyl.Stagnation) :
  Cyl.stagnation Vinf cylinderRadius strength = Ok st ->
  Cyl.xStag st =
    Np.zip_with (fun r t => option_map (fun t => r * cos t) t)
      (Cyl.rStag st) (Cyl.thetaStag st) /\
  Cyl.yStag st =
    Np.zip_with (fun r t => option_map (fun t => r * sin t) t)
      (Cyl.rStag st) (Cyl.thetaStag st).
Proof.
  unfold Cyl.stagnation.
  destruct (py_div strength (4 * PI * Vinf * cylinderRadius)) as [cond | e];
    cbn [bind]; [| discriminate].
  match goal with
  | |- (tr <- ?m ;; _) = _ -> _ => destruct m as [tr | e]
  end; cbn [bind]; [| discriminate].
  intros H. injection H as <-. split; reflexivity.
Qed.

(** X2.  Every reported stagnation point is one: each reported angle is a
    number, and the solver's own radial and tangential velocity vanish at
    each pair [(rStag, thetaStag)], in all three regimes, as long as the arc
    sine is defined ([-1 <= condition]). *)
Theorem stagnation_points_have_zero_velocity
  (Lx Ly : R * R) (Vinf cylinderRadius strength : R) :
  valid_extents Lx Ly -> 0 < Vinf -> 0 < cylinderRadius ->
  -1 <= strength / (4 * PI * Vinf * cylinderRadius) ->
  exists sol,
    Cyl.plotRotatingCylinder Lx Ly Vinf cylinderRadius strength = Ok sol /\
    Cyl.rStag (Cyl.sol_stag sol) <> [] /\
    Forall2 (fun r t =>
               exists theta, t = Some theta /\
                 Cyl.Vr Vinf cylinderRadius r theta = 0 /\
                 Cyl.Vtheta Vinf cylinderRadius strength r theta = 0)
      (Cyl.rStag (Cyl.sol_stag sol)) (Cyl.thetaStag (Cyl.sol_stag sol)).
Proof.
  intros He Hv Hr Hc. pose proof PI_RGT_0 as Hpi.
  destruct (plot_returns Lx Ly Vinf cylinderRadius strength He Hv Hr)
    as [sol [E [_ [_ [Est _]]]]].
  destruct (stagnation_returns Vinf cylinderRadius strength Hv Hr)
    as [st [Est' [_ [Hlt [Heq Hgt]]]]].
  rewrite Est in Est'. injection Est' as <-.
  exists sol. split; [exact E |].
  set (c := strength / (4 * PI * Vinf * cylinderRadius)) in *.
  assert (Es : strength = c * (4 * PI * Vinf * cylinderRadius))
    by (unfold c; field; lra).
  destruct (Rtotal_order c 1) as [Lt | [Eq | Gt]].
  - destruct (Hlt Lt) as [Hth ->]. split; [discriminate |].
    rewrite surface_angles_defined in Hth by lra. rewrite Hth.
    assert (S1 : sin (asin (- c)) = - c) by (apply sin_asin; lra).
    apply Forall2_cons; [| apply Forall2_cons; [| apply Forall2_nil]];
      (eexists; split; [reflexivity |]); split; unfold Cyl.Vr, Cyl.Vtheta.
    + field. lra.
    + rewrite sin_wrap_negative, sin_PI_x, S1, Es. field. lra.
    + field. lra.
    + rewrite sin_wrap_negative, S1, Es. field. lra.
  - destruct (Heq Eq) as [-> ->]. split; [discriminate |].
    apply Forall2_cons; [| apply Forall2_nil];
      (eexists; split; [reflexivity |]); split; unfold Cyl.Vr, Cyl.Vtheta.
    + rewrite cos_three_half_pi. ring.
    + rewrite sin_three_half_pi, Es, Eq. field. lra.
  - destruct (Hgt Gt) as [-> ->]. split; [discriminate |].
    destruct (off_surface_radii Vinf cylinderRadius strength Hv Hr Gt)
      as [_ [Hd [_ [G1 [_ G2]]]]].
    set (t := strength / (4 * PI * Vinf)) in *.
    assert (Et : strength = t * (4 * PI * Vinf)) by (unfold t; field; lra).
    pose proof (sqrt_sqrt (t ^ 2 - cylinderRadius ^ 2) ltac:(lra)) as Hq.
    set (q := sqrt (t ^ 2 - cylinderRadius ^ 2)) in *.
    assert (Root1 : (t + q) * (t + q) - 2 * t * (t + q)
                    + cylinderRadius * cylinderRadius = 0) by nra.
    assert (Root2 : (t - q) * (t - q) - 2 * t * (t - q)
                    + cylinderRadius * cylinderRadius = 0) by nra.
    apply Forall2_cons; [| apply Forall2_cons; [| apply Forall2_nil]];
      (eexists; split; [reflexivity |]); split; unfold Cyl.Vr, Cyl.Vtheta.
    + rewrite cos_three_half_pi. ring.
    + rewrite sin_three_half_pi, Et.
      apply (Rmult_eq_reg_r ((t + q) * (t + q))); [| nra].
      rewrite Rmult_0_l.
      match goal with
      | |- ?A = 0 =>
          replace A with (Vinf * ((t + q) * (t + q) - 2 * t * (t + q)
                                  + cylinderRadius * cylinderRadius))
            by (field; lra)
      end.
      rewrite Root1. ring.
    + rewrite cos_three_half_pi. ring.
    + rewrite sin_three_half_pi, Et.
      apply (Rmult_eq_reg_r ((t - q) * (t - q))); [| nra].
      rewrite Rmult_0_l.
      match goal with
      | |- ?A = 0 =>
          replace A with (Vinf * ((t - q) * (t - q) - 2 * t * (t - q)
                                  + cylinderRadius * cylinderRadius))
            by (field; lra)
      end.
      rewrite Root2. ring.
Qed.

Lemma stagnation_points_have_zero_velocity_witness :
  exists sol,
    Cyl.plotRotatingCylinder (-5, 5) (-5, 5) 1 1 0 = Ok sol /\
    Cyl.rStag (Cyl.sol_stag sol) <> [] /\
    Forall2 (fun r t =>
               exists theta, t = Some theta /\
                 Cyl.Vr 1 1 r theta = 0 /\ Cyl.Vtheta 1 1 0 r theta = 0)
      (Cyl.rStag (Cyl.sol_stag sol)) (Cyl.thetaStag (Cyl.sol_stag sol)).
Proof.
  apply (stagnation_points_have_zero_velocity (-5, 5) (-5, 5) 1 1 0).
  - unfold valid_extents; simpl; lra.
  - lra.
  - lra.
  - unfold Rdiv. rewrite Rmult_0_l. lra.
Defined.

(** X3.  Where the stagnation points lie in the plane.  On the surface
    ([-1 <= condition < 1]) the two points are mirror images in the y-axis,
    [x = -+ R sqrt(1 - condition^2)], at the common height
    [y = - R condition]; at [condition = 1] the single point is the bottom of
    the cylinder [(0, -R)]; above 1 both points lie on the negative y-axis,
    at [y = - r1] and [y = - r2]. *)
Theorem stagnation_points_in_the_plane
  (Lx Ly : R * R) (Vinf cylinderRadius strength : R) :
  valid_extents Lx Ly -> 0 < Vinf -> 0 < cylinderRadius ->
  let c := strength / (4 * PI * Vinf * cylinderRadius) in
  let t := strength / (4 * PI * Vinf) in
  exists sol,
    Cyl.plotRotatingCylinder Lx Ly Vinf cylinderRadius strength = Ok sol /\
    (-1 <= c < 1 ->
     Cyl.xStag (Cyl.sol_stag sol) =
       [Some (- (cylinderRadius * sqrt (1 - c ^ 2)));
        Some (cylinderRadius * sqrt (1 - c ^ 2))] /\
     Cyl.yStag (Cyl.sol_stag sol) =
       [Some (- (cylinderRadius * c)); Some (- (cylinderRadius * c))]) /\
    (c = 1 ->
     Cyl.xStag (Cyl.sol_stag sol) = [Some 0] /\
     Cyl.yStag (Cyl.sol_stag sol) = [Some (- cylinderRadius)]) /\
    (c > 1 ->
     Cyl.xStag (Cyl.sol_stag sol) = [Some 0; Some 0] /\
     Cyl.yStag (Cyl.sol_stag sol) =
       [Some (- (t + sqrt (t ^ 2 - cylinderRadius ^ 2)));
        Some (- (t - sqrt (t ^ 2 - cylinderRadius ^ 2)))]).
Proof.
  intros He Hv Hr c t.
  destruct (plot_returns Lx Ly Vinf cylinderRadius strength He Hv Hr)
    as [sol [E [_ [_ [Est _]]]]].
  destruct (stagnation_returns Vinf cylinderRadius strength Hv Hr)
    as [st [Est' [_ [Hlt [Heq Hgt]]]]].
  rewrite Est in Est'. injection Est' as <-.
  destruct (stagnation_xy _ _ _ _ Est) as [Hx Hy].
  fold c in Hlt, Heq, Hgt. fold t in Hgt.
  exists sol. split; [exact E |]. rewrite Hx, Hy. split; [| split].
  - intros [Hl Hu]. destruct (Hlt Hu) as [Hth ->].
    rewrite surface_angles_defined in Hth by lra. rewrite Hth.
    assert (S1 : sin (asin (- c)) = - c) by (apply sin_asin; lra).
    assert (C1 : cos (asin (- c)) = sqrt (1 - c ^ 2)).
    { rewrite cos_asin by lra. f_equal. unfold Rsqr. ring. }
    cbn [Np.zip_with option_map].
    rewrite !cos_wrap_negative, !sin_wrap_negative, sin_PI_x, S1, C1.
    replace (cos (PI - asin (- c))) with (- sqrt (1 - c ^ 2)).
    + split; repeat f_equal; ring.
    + rewrite cos_minus, cos_PI, sin_PI, C1. ring.
  - intros Eq. destruct (Heq Eq) as [-> ->]. cbn [Np.zip_with option_map].
    rewrite cos_three_half_pi, sin_three_half_pi.
    split; repeat f_equal; ring.
  - intros Gt. destruct (Hgt Gt) as [-> ->]. cbn [Np.zip_with option_map].
    rewrite cos_three_half_pi, sin_three_half_pi.
    split; repeat f_equal; ring.
Qed.

Lemma stagnation_points_in_the_plane_witness :
  exists sol,
    Cyl.plotRotatingCylinder (-5, 5) (-5, 5) 1 1 0 = Ok sol /\
    Cyl.xStag (Cyl.sol_stag sol) =
      [Some (- (1 * sqrt (1 - (0 / (4 * PI * 1 * 1)) ^ 2)));
       Some (1 * sqrt (1 - (0 / (4 * PI * 1 * 1)) ^ 2))] /\
    Cyl.yStag (Cyl.sol_stag sol) =
      [Some (- (1 * (0 / (4 * PI * 1 * 1))));
       Some (- (1 * (0 / (4 * PI * 1 * 1))))].
Proof.
  destruct (stagnation_points_in_the_plane (-5, 5) (-5, 5) 1 1 0)
    as [sol [E [H _]]].
  - unfold valid_extents; simpl; lra.
  - lra.
  - lra.
  - exists sol. split; [exact E |]. apply H.
    unfold Rdiv. rewrite Rmult_0_l. lra.
Defined.

(** X4.  On the body surface nothing flows through the wall: at every surface
    sample a returning call hands out, the radial velocity is zero, the
    point lies on the circle of radius [cylinderRadius], the tangential
    velocity is [-2 Vinf sin(theta) - strength/(2 pi R)], the speed is its
    absolute value, and [Cp = 1 - (Vtheta/Vinf)^2]. *)
Theorem surface_flow_is_tangential
  (Lx Ly : R * R) (Vinf cylinderRadius strength : R) :
  valid_extents Lx Ly -> 0 < Vinf -> 0 < cylinderRadius ->
  exists sol,
    Cyl.plotRotatingCylinder Lx Ly Vinf cylinderRadius strength = Ok sol /\
    List.length (Cyl.sol_surface sol) = Cyl.surface_samples /\
    Forall (fun p =>
              Cyl.s_Vr p = 0 /\
              Cyl.s_x p ^ 2 + Cyl.s_y p ^ 2 = cylinderRadius ^ 2 /\
              Cyl.s_Vtheta p =
                - 2 * Vinf * sin (Cyl.s_theta p)
                - strength / (2 * PI * cylinderRadius) /\
              Cyl.s_Vmag p = Rabs (Cyl.s_Vtheta p) /\
              Cyl.s_Cp p = 1 - (Cyl.s_Vtheta p / Vinf) ^ 2)
      (Cyl.sol_surface sol).
Proof.
  intros He Hv Hr.
  destruct (plot_returns Lx Ly Vinf cylinderRadius strength He Hv Hr)
    as [sol [E [_ [Es _]]]].
  exists sol. split; [exact E |]. rewrite Es. split.
  - rewrite length_map. unfold Cyl.thetaS. apply linspace_length.
  - apply Forall_map. apply Forall_forall. intros th _.
    set (w := strength / (2 * PI * cylinderRadius)).
    unfold Cyl.surface_point.
    cbn [Cyl.s_Vr Cyl.s_x Cyl.s_y Cyl.s_Vtheta Cyl.s_Vmag Cyl.s_Cp
         Cyl.s_theta].
    assert (E0 : (1 - cylinderRadius * cylinderRadius
                      / (cylinderRadius * 1 * (cylinderRadius * 1)))
                 * Vinf * cos th = 0) by (field; lra).
    assert (E1 : - (1 + cylinderRadius * cylinderRadius
                        / (cylinderRadius * 1 * (cylinderRadius * 1)))
                 * Vinf * sin th - w = - 2 * Vinf * sin th - w)
      by (field; lra).
    rewrite E0, E1.
    set (vt := - 2 * Vinf * sin th - w).
    assert (Em : sqrt (0 * 0 + vt * vt) = Rabs vt).
    { replace (0 * 0 + vt * vt) with (Rsqr vt) by (unfold Rsqr; ring).
      apply sqrt_Rsqr_abs. }
    rewrite Em.
    split; [reflexivity |]. split.
    { pose proof (sin2_cos2 th) as Hsc. unfold Rsqr in Hsc.
      replace ((cylinderRadius * 1 * cos th) ^ 2
               + (cylinderRadius * 1 * sin th) ^ 2)
        with (cylinderRadius ^ 2 * (sin th * sin th + cos th * cos th))
        by ring.
      rewrite Hsc. ring. }
    split; [reflexivity |]. split; [reflexivity |].
    replace (Rabs vt * Rabs vt) with (vt * vt).
    + field. lra.
    + unfold Rabs. destruct (Rcase_abs vt); ring.
Qed.

Lemma surface_flow_is_tangential_witness :
  exists sol,
    Cyl.plotRotatingCylinder (-5, 5) (-5, 5) 1 1 0 = Ok sol /\
    List.length (Cyl.sol_surface sol) = Cyl.surface_samples.
Proof.
  destruct (surface_flow_is_tangential (-5, 5) (-5, 5) 1 1 0)
    as [sol [E [L _]]].
  - unfold valid_extents; simpl; lra.
  - lra.
  - lra.
  - exists sol. split; assumption.
Defined.

(** X5.  The body contour is a closed curve: it has 250 points, and the first
    and the last are the same point [(R, 0)]. *)
Theorem body_contour_is_closed
  (Lx Ly : R * R) (Vinf cylinderRadius strength : R) :
  valid_extents Lx Ly -> 0 < Vinf -> 0 < cylinderRadius ->
  exists sol pts,
    Cyl.plotRotatingCylinder Lx Ly Vinf cylinderRadius strength = Ok sol /\
    Cyl.body_contour sol = Some pts /\
    List.length pts = 250%nat /\
    nth_error pts 0 = Some (cylinderRadius, 0) /\
    nth_error pts 249 = Some (cylinderRadius, 0).
Proof.
  intros He Hv Hr.
  rewrite sanity_check_passes by (repeat split; try apply He; lra).
  unfold Cyl.surface.
  rewrite py_div_ok
    by (pose proof two_pi_pos; apply Rmult_integral_contrapositive_currified; lra).
  cbn [bind].
  destruct (stagnation_returns Vinf cylinderRadius strength Hv Hr) as [st [Est _]].
  rewrite Est. cbn [bind].
  destruct (Req_dec_T cylinderRadius 0) as [E | _]; [lra |].
  do 2 eexists. split; [reflexivity |].
  cbn [Cyl.body_contour]. split; [reflexivity |].
  set (w := strength / (2 * PI * cylinderRadius)).
  rewrite map_map. split; [| split].
  - rewrite length_map. unfold Cyl.thetaS. apply linspace_length.
  - rewrite nth_error_map. unfold Cyl.thetaS.
    rewrite linspace_first by (unfold Cyl.surface_samples; lia).
    cbn [option_map Cyl.surface_point Cyl.s_x Cyl.s_y].
    rewrite cos_0, sin_0. do 2 f_equal; ring.
  - rewrite nth_error_map. unfold Cyl.thetaS.
    change 249%nat with (Cyl.surface_samples - 1)%nat.
    rewrite linspace_last by (unfold Cyl.surface_samples; lia).
    cbn [option_map Cyl.surface_point Cyl.s_x Cyl.s_y].
    rewrite cos_2PI, sin_2PI. do 2 f_equal; ring.
Qed.

Lemma body_contour_is_closed_witness :
  exists sol pts,
    Cyl.plotRotatingCylinder (-5, 5) (-5, 5) 1 1 0 = Ok sol /\
    Cyl.body_contour sol = Some pts /\
    List.length pts = 250%nat /\
    nth_error pts 0 = Some (1, 0) /\
    nth_error pts 249 = Some (1, 0).
Proof.
  apply (body_contour_is_closed (-5, 5) (-5, 5) 1 1 0).
  - unfold valid_extents; simpl; lra.
  - lra.
  - lra.
Defined.

(** ** The grid in Cartesian terms *)

Lemma node_speed (Vinf Rc Gamma x y : R) :
  Cyl.n_Vmag (Cyl.node Vinf Rc Gamma x y) =
  sqrt (Cyl.n_Vx (Cyl.node Vinf Rc Gamma x y) ^ 2
        + Cyl.n_Vy (Cyl.node Vinf Rc Gamma x y) ^ 2).
Proof.
  unfold Cyl.node. cbn [Cyl.n_Vmag Cyl.n_Vx Cyl.n_Vy].
  unfold Cyl.Vmag, Cyl.Vx, Cyl.Vy.
  set (vr := Cyl.Vr _ _ _ _). set (vt := Cyl.Vtheta _ _ _ _ _).
  set (th := Cyl.theta_at x y).
  pose proof (sin2_cos2 th) as Hsc. unfold Rsqr in Hsc.
  f_equal.
  replace ((vr * cos th - vt * sin th) ^ 2 + (vr * sin th + vt * cos th) ^ 2)
    with ((vr * vr + vt * vt) * (sin th * sin th + cos th * cos th)) by ring.
  rewrite Hsc. ring.
Qed.

(** X8.  The speed array is the Euclidean norm of the two Cartesian velocity
    arrays at every node [[i][j]] of the grid that is not the origin
    ([x_j^2 + y_i^2 > 0]): the rotation from polar to Cartesian components
    preserves the length. *)
Theorem grid_speed_is_norm_of_components
  (Lx Ly : R * R) (Vinf Rc Gamma : R) (i j : nat) :
  (i < Cyl.grid_points)%nat -> (j < Cyl.grid_points)%nat ->
  let x := fst Lx + INR j * ((snd Lx - fst Lx) / INR (Cyl.grid_points - 1)) in
  let y := fst Ly + INR i * ((snd Ly - fst Ly) / INR (Cyl.grid_points - 1)) in
  0 < x * x + y * y ->
  exists nd,
    Np.at2 (Cyl.grid Lx Ly Vinf Rc Gamma) i j = Some nd /\
    Cyl.n_Vmag nd = sqrt (Cyl.n_Vx nd ^ 2 + Cyl.n_Vy nd ^ 2).
Proof.
  intros Hi Hj x y _.
  exists (Cyl.node Vinf Rc Gamma x y). split.
  - unfold Cyl.grid. apply on_mesh_at2; apply linspace_nth; assumption.
  - apply node_speed.
Qed.

Lemma grid_speed_is_norm_of_components_witness :
  exists nd,
    Np.at2 (Cyl.grid (-5, 5) (-5, 5) 1 1 0) 0 0 = Some nd /\
    Cyl.n_Vmag nd = sqrt (Cyl.n_Vx nd ^ 2 + Cyl.n_Vy nd ^ 2).
Proof.
  assert (H0 : (0 < Cyl.grid_points)%nat) by (unfold Cyl.grid_points; lia).
  apply (grid_speed_is_norm_of_components (-5, 5) (-5, 5) 1 1 0 0 0 H0 H0).
  simpl. nra.
Defined.

(** The velocity at a node, free of angles. *)
Lemma node_velocity_cartesian (Vinf Rc Gamma x y : R) :
  0 < x * x + y * y ->
  Cyl.n_Vx (Cyl.node Vinf Rc Gamma x y) =
    Vinf * (1 - Rc * Rc * (x * x - y * y)
                / ((x * x + y * y) * (x * x + y * y)))
    + Gamma * y / (2 * PI * (x * x + y * y)) /\
  Cyl.n_Vy (Cyl.node Vinf Rc Gamma x y) =
    - (2 * Vinf * Rc * Rc * x * y / ((x * x + y * y) * (x * x + y * y)))
    - Gamma * x / (2 * PI * (x * x + y * y)).
Proof.
  intros Hd. pose proof PI_RGT_0 as Hpi.
  pose proof (sqrt_lt_R0 _ Hd) as Hr.
  destruct (arctan2_polar x y Hr) as [Hc Hs].
  pose proof (sqrt_sqrt (x * x + y * y) ltac:(lra)) as Hrr.
  pose proof (sin2_cos2 (Np.arctan2 y x)) as Hsc. unfold Rsqr in Hsc.
  unfold Cyl.node, Cyl.r_at, Cyl.theta_at. cbn [Cyl.n_Vx Cyl.n_Vy].
  unfold Cyl.Vx, Cyl.Vy, Cyl.Vr, Cyl.Vtheta.
  set (r := sqrt (x * x + y * y)) in *.
  set (ct := cos (Np.arctan2 y x)) in *.
  set (st := sin (Np.arctan2 y x)) in *.
  clearbody r ct st. subst x y.
  assert (Hd2 : r * ct * (r * ct) + r * st * (r * st) = r * r).
  { transitivity (r * r * (st * st + ct * ct)); [ring | rewrite Hsc; ring]. }
  rewrite !Hd2.
  split; apply Rminus_diag_uniq.
  - match goal with
    | |- ?A - ?B = 0 =>
        replace (A - B) with (Vinf * (st * st + ct * ct - 1)) by (field; lra)
    end.
    rewrite Hsc. ring.
  - match goal with
    | |- ?A - ?B = 0 => replace (A - B) with 0 by (field; lra)
    end.
    reflexivity.
Qed.

(** X9.  In Cartesian form, at every point other than the origin:
    [Vx = Vinf (1 - R^2 (x^2 - y^2)/(x^2+y^2)^2) + Gamma y/(2 pi (x^2+y^2))],
    [Vy = -2 Vinf R^2 x y/(x^2+y^2)^2 - Gamma x/(2 pi (x^2+y^2))].
    The value does not depend on the branch of the angle. *)
Theorem grid_velocity_cartesian (Vinf Rc Gamma x y : R) :
  0 < x * x + y * y ->
  let d := x * x + y * y in
  Cyl.n_Vx (Cyl.node Vinf Rc Gamma x y) =
    Vinf * (1 - Rc * Rc * (x * x - y * y) / (d * d))
    + Gamma * y / (2 * PI * d) /\
  Cyl.n_Vy (Cyl.node Vinf Rc Gamma x y) =
    - (2 * Vinf * Rc * Rc * x * y / (d * d)) - Gamma * x / (2 * PI * d).
Proof.
  intros Hd. exact (node_velocity_cartesian Vinf Rc Gamma x y Hd).
Qed.

Lemma grid_velocity_cartesian_witness :
  Cyl.n_Vx (Cyl.node 1 1 0 2 0) =
    1 * (1 - 1 * 1 * (2 * 2 - 0 * 0) / ((2 * 2 + 0 * 0) * (2 * 2 + 0 * 0)))
    + 0 * 0 / (2 * PI * (2 * 2 + 0 * 0)).
Proof.
  apply (grid_velocity_cartesian 1 1 0 2 0). lra.
Defined.

(** X10.  The flow is fore-aft symmetric for every circulation: mirroring a point
    in the y-axis keeps [Vx] and the speed and reverses [Vy].  Without
    circulation it is also symmetric in the x-axis: mirroring keeps [Vx]
    and the speed and reverses [Vy]. *)
Theorem grid_velocity_symmetries (Vinf Rc Gamma x y : R) :
  0 < x * x + y * y ->
  (Cyl.n_Vx (Cyl.node Vinf Rc Gamma (- x) y) =
     Cyl.n_Vx (Cyl.node Vinf Rc Gamma x y) /\
   Cyl.n_Vy (Cyl.node Vinf Rc Gamma (- x) y) =
     - Cyl.n_Vy (Cyl.node Vinf Rc Gamma x y) /\
   Cyl.n_Vmag (Cyl.node Vinf Rc Gamma (- x) y) =
     Cyl.n_Vmag (Cyl.node Vinf Rc Gamma x y)) /\
  (Cyl.n_Vx (Cyl.node Vinf Rc 0 x (- y)) =
     Cyl.n_Vx (Cyl.node Vinf Rc 0 x y) /\
   Cyl.n_Vy (Cyl.node Vinf Rc 0 x (- y)) =
     - Cyl.n_Vy (Cyl.node Vinf Rc 0 x y) /\
   Cyl.n_Vmag (Cyl.node Vinf Rc 0 x (- y)) =
     Cyl.n_Vmag (Cyl.node Vinf Rc 0 x y)).
Proof.
  intros Hd. pose proof PI_RGT_0 as Hpi.
  destruct (node_velocity_cartesian Vinf Rc Gamma x y Hd) as [X Y].
  destruct (node_velocity_cartesian Vinf Rc Gamma (- x) y) as [X1 Y1]; [nra |].
  destruct (node_velocity_cartesian Vinf Rc 0 x y Hd) as [X0 Y0].
  destruct (node_velocity_cartesian Vinf Rc 0 x (- y)) as [X2 Y2]; [nra |].
  assert (A1 : Cyl.n_Vx (Cyl.node Vinf Rc Gamma (- x) y) =
               Cyl.n_Vx (Cyl.node Vinf Rc Gamma x y))
    by (rewrite X1, X; field; lra).
  assert (A2 : Cyl.n_Vy (Cyl.node Vinf Rc Gamma (- x) y) =
               - Cyl.n_Vy (Cyl.node Vinf Rc Gamma x y))
    by (rewrite Y1, Y; field; lra).
  assert (B1 : Cyl.n_Vx (Cyl.node Vinf Rc 0 x (- y)) =
               Cyl.n_Vx (Cyl.node Vinf Rc 0 x y))
    by (rewrite X2, X0; field; lra).
  assert (B2 : Cyl.n_Vy (Cyl.node Vinf Rc 0 x (- y)) =
               - Cyl.n_Vy (Cyl.node Vinf Rc 0 x y))
    by (rewrite Y2, Y0; field; lra).
  repeat split; try assumption.
  - rewrite !node_speed, A1, A2. f_equal. ring.
  - rewrite !node_speed, B1, B2. f_equal. ring.
Qed.

Lemma grid_velocity_symmetries_witness :
  Cyl.n_Vx (Cyl.node 1 1 3 (- 2) 1) = Cyl.n_Vx (Cyl.node 1 1 3 2 1).
Proof.
  apply (grid_velocity_symmetries 1 1 3 2 1). lra.
Defined.

(** X11.  The body is a streamline: at a point on the circle [r = R] the radial
    velocity and the stream function are both zero, whatever the
    circulation. *)
Theorem body_is_a_streamline (Vinf Rc Gamma x y : R) :
  0 < Rc -> Cyl.r_at x y = Rc ->
  Cyl.n_Vr (Cyl.node Vinf Rc Gamma x y) = 0 /\
  Cyl.n_psi (Cyl.node Vinf Rc Gamma x y) = 0.
Proof.
  intros HR Hr. pose proof PI_RGT_0 as Hpi.
  unfold Cyl.node. cbn [Cyl.n_Vr Cyl.n_psi]. rewrite Hr.
  unfold Cyl.Vr, Cyl.psi. split.
  - field. lra.
  - replace (Rc / Rc) with 1 by (field; lra). rewrite ln_1. field. lra.
Qed.

Lemma body_is_a_streamline_witness :
  Cyl.n_Vr (Cyl.node 1 2 3 2 0) = 0 /\ Cyl.n_psi (Cyl.node 1 2 3 2 0) = 0.
Proof.
  apply (body_is_a_streamline 1 2 3 2 0); [lra |].
  unfold Cyl.r_at. replace (2 * 2 + 0 * 0) with (2 * 2) by ring.
  apply sqrt_square. lra.
Defined.

(** * Further properties of the Cylinder element *)

(** The contribution of the element, free of angles. *)
Lemma preset_cartesian_form (c : Preset.PresetCylinder) (x y : R) :
  let Vinf := Preset.Vinfty c in
  let Rc := Preset.radius c in
  let dx := x - Preset.x0 c in
  let dy := y - Preset.y0 c in
  let d := dx * dx + dy * dy in
  0 < d ->
  Preset.calculate_contribution c x y =
  (Vinf * (1 - Rc * Rc * (dx * dx - dy * dy) / (d * d)),
   - (2 * Vinf * Rc * Rc * dx * dy / (d * d)),
   Vinf * dx * (1 + Rc * Rc / d),
   Vinf * dy * (1 - Rc * Rc / d)).
Proof.
  intros Vinf Rc dx dy d Hd.
  pose proof (sqrt_lt_R0 _ Hd) as Hr.
  destruct (arctan2_polar dx dy Hr) as [Hc Hs].
  pose proof (sin2_cos2 (Np.arctan2 dy dx)) as Hsc. unfold Rsqr in Hsc.
  unfold Preset.calculate_contribution. fold Vinf Rc dx dy.
  unfold d in *.
  set (r := sqrt (dx * dx + dy * dy)) in *.
  set (ct := cos (Np.arctan2 dy dx)) in *.
  set (st := sin (Np.arctan2 dy dx)) in *.
  clearbody r ct st dx dy. subst dx dy.
  assert (Hd2 : r * ct * (r * ct) + r * st * (r * st) = r * r).
  { transitivity (r * r * (st * st + ct * ct)); [ring | rewrite Hsc; ring]. }
  rewrite !Hd2.
  repeat match goal with
         | |- (_, _) = (_, _) => apply f_equal2
         end.
  - apply Rminus_diag_uniq.
    match goal with
    | |- ?A - ?B = 0 =>
        replace (A - B) with (Vinf * (st * st + ct * ct - 1)) by (field; lra)
    end.
    rewrite Hsc. ring.
  - field. lra.
  - field. lra.
  - field. lra.
Qed.

(** X12.  At every query point other than its centre the element contributes
    [du = Vinf (1 - R^2 (dx^2 - dy^2)/d^2)], [dv = -2 Vinf R^2 dx dy/d^2],
    [dphi = Vinf dx (1 + R^2/d)], [dpsi = Vinf dy (1 - R^2/d)], with
    [dx = x - x0], [dy = y - y0], [d = dx^2 + dy^2]. *)
Theorem cylinder_element_cartesian (c : Preset.PresetCylinder) (x y : R) :
  let Vinf := Preset.Vinfty c in
  let Rc := Preset.radius c in
  let dx := x - Preset.x0 c in
  let dy := y - Preset.y0 c in
  let d := dx * dx + dy * dy in
  0 < d ->
  Preset.calculate_contribution c x y =
  (Vinf * (1 - Rc * Rc * (dx * dx - dy * dy) / (d * d)),
   - (2 * Vinf * Rc * Rc * dx * dy / (d * d)),
   Vinf * dx * (1 + Rc * Rc / d),
   Vinf * dy * (1 - Rc * Rc / d)).
Proof. exact (preset_cartesian_form c x y). Qed.

Lemma cylinder_element_cartesian_witness :
  Preset.calculate_contribution (Preset.mkPresetCylinder 1 1 (1, 0)) 3 0 =
  (1 * (1 - 1 * 1 * ((3 - 1) * (3 - 1) - (0 - 0) * (0 - 0))
            / (((3 - 1) * (3 - 1) + (0 - 0) * (0 - 0))
               * ((3 - 1) * (3 - 1) + (0 - 0) * (0 - 0)))),
   - (2 * 1 * 1 * 1 * (3 - 1) * (0 - 0)
      / (((3 - 1) * (3 - 1) + (0 - 0) * (0 - 0))
         * ((3 - 1) * (3 - 1) + (0 - 0) * (0 - 0)))),
   1 * (3 - 1) * (1 + 1 * 1 / ((3 - 1) * (3 - 1) + (0 - 0) * (0 - 0))),
   1 * (0 - 0) * (1 - 1 * 1 / ((3 - 1) * (3 - 1) + (0 - 0) * (0 - 0)))).
Proof.
  apply (cylinder_element_cartesian (Preset.mkPresetCylinder 1 1 (1, 0)) 3 0).
  cbv [Preset.x0 Preset.y0 Preset.radius Preset.position fst snd]. lra.
Defined.

(** X13.  The element's body is impermeable: at a query point on the circle of
    radius [R > 0] around the centre the velocity has no radial component
    and the stream function is zero; and at the two points
    [(x0 - R, y0)] and [(x0 + R, y0)] the velocity vanishes altogether. *)
Theorem cylinder_element_body (c : Preset.PresetCylinder) (x y : R) :
  0 < Preset.radius c ->
  (x - Preset.x0 c) * (x - Preset.x0 c) + (y - Preset.y0 c) * (y - Preset.y0 c)
  = Preset.radius c * Preset.radius c ->
  exists du dv dphi dpsi,
    Preset.calculate_contribution c x y = (du, dv, dphi, dpsi) /\
    du * (x - Preset.x0 c) + dv * (y - Preset.y0 c) = 0 /\
    dpsi = 0 /\
    (y = Preset.y0 c -> du = 0 /\ dv = 0).
Proof.
  intros HR Hd.
  assert (Hpos : 0 < (x - Preset.x0 c) * (x - Preset.x0 c)
                     + (y - Preset.y0 c) * (y - Preset.y0 c)) by nra.
  rewrite (preset_cartesian_form c x y Hpos). cbv zeta.
  do 4 eexists. split; [reflexivity |].
  rewrite !Hd.
  set (dx := x - Preset.x0 c) in *. set (dy := y - Preset.y0 c) in *.
  set (Rc := Preset.radius c) in *. set (Vinf := Preset.Vinfty c).
  assert (HR0 : Rc <> 0) by lra.
  split; [| split].
  - apply Rminus_diag_uniq.
    match goal with
    | |- ?A - 0 = 0 =>
        replace (A - 0)
          with (Vinf * dx * (Rc * Rc - (dx * dx + dy * dy)) / (Rc * Rc))
          by (field; lra)
    end.
    rewrite Hd. field. lra.
  - field. lra.
  - intros Hy. assert (Hdy : dy = 0) by (unfold dy; lra).
    rewrite Hdy in *.
    assert (Hdx : dx * dx = Rc * Rc) by lra.
    split.
    + replace (dx * dx - 0 * 0) with (Rc * Rc) by lra. field. lra.
    + field. lra.
Qed.

Lemma cylinder_element_body_witness :
  exists du dv dphi dpsi,
    Preset.calculate_contribution (Preset.mkPresetCylinder 1 2 (1, 0)) 3 0 =
      (du, dv, dphi, dpsi) /\
    du * (3 - 1) + dv * (0 - 0) = 0 /\
    dpsi = 0 /\
    (0 = 0 -> du = 0 /\ dv = 0).
Proof.
  apply (cylinder_element_body (Preset.mkPresetCylinder 1 2 (1, 0)) 3 0).
  - cbv [Preset.x0 Preset.y0 Preset.radius Preset.position fst snd]. lra.
  - cbv [Preset.x0 Preset.y0 Preset.radius Preset.position fst snd]. lra.
Defined.

(** X14.  An element of radius zero is the bare uniform stream: away from its
    centre it contributes [(Vinf, 0)], potential [Vinf (x - x0)] and stream
    function [Vinf (y - y0)]. *)
Theorem cylinder_element_zero_radius (c : Preset.PresetCylinder) (x y : R) :
  Preset.radius c = 0 ->
  0 < (x - Preset.x0 c) * (x - Preset.x0 c)
      + (y - Preset.y0 c) * (y - Preset.y0 c) ->
  Preset.calculate_contribution c x y =
  (Preset.Vinfty c, 0,
   Preset.Vinfty c * (x - Preset.x0 c),
   Preset.Vinfty c * (y - Preset.y0 c)).
Proof.
  intros HR Hd. rewrite (preset_cartesian_form c x y Hd). cbv zeta.
  rewrite HR.
  repeat match goal with
         | |- (_, _) = (_, _) => apply f_equal2
         end; field; lra.
Qed.

Lemma cylinder_element_zero_radius_witness :
  Preset.calculate_contribution (Preset.mkPresetCylinder 2 0 (1, 0)) 3 0 =
  (2, 0, 2 * (3 - 1), 2 * (0 - 0)).
Proof.
  apply (cylinder_element_zero_radius (Preset.mkPresetCylinder 2 0 (1, 0)) 3 0).
  - reflexivity.
  - cbv [Preset.x0 Preset.y0 Preset.radius Preset.position fst snd]. lra.
Defined.

(** X15.  The element's field is symmetric in both axes through its centre:
    mirroring the query point in the horizontal axis keeps [du] and [dphi]
    and reverses [dv] and [dpsi]; mirroring it in the vertical axis keeps
    [du] and [dpsi] and reverses [dv] and [dphi]. *)
Theorem cylinder_element_symmetries (c : Preset.PresetCylinder) (a b : R) :
  0 < a * a + b * b ->
  let at_offset := fun a b =>
    Preset.calculate_contribution c (Preset.x0 c + a) (Preset.y0 c + b) in
  exists du dv dphi dpsi,
    at_offset a b = (du, dv, dphi, dpsi) /\
    at_offset a (- b) = (du, - dv, dphi, - dpsi) /\
    at_offset (- a) b = (du, - dv, - dphi, dpsi).
Proof.
  intros Hd at_offset. unfold at_offset.
  assert (Ex : forall u, Preset.x0 c + u - Preset.x0 c = u) by (intros; ring).
  assert (Ey : forall u, Preset.y0 c + u - Preset.y0 c = u) by (intros; ring).
  rewrite !preset_cartesian_form; cbv zeta; rewrite ?Ex, ?Ey; try nra.
  do 4 eexists. split; [reflexivity |].
  split;
    repeat match goal with
           | |- (_, _) = (_, _) => apply f_equal2
           end; field; lra.
Qed.

Lemma cylinder_element_symmetries_witness :
  exists du dv dphi dpsi,
    Preset.calculate_contribution (Preset.mkPresetCylinder 1 1 (1, 0))
      (Preset.x0 (Preset.mkPresetCylinder 1 1 (1, 0)) + 2)
      (Preset.y0 (Preset.mkPresetCylinder 1 1 (1, 0)) + 1)
    = (du, dv, dphi, dpsi) /\
    Preset.calculate_contribution (Preset.mkPresetCylinder 1 1 (1, 0))
      (Preset.x0 (Preset.mkPresetCylinder 1 1 (1, 0)) + 2)
      (Preset.y0 (Preset.mkPresetCylinder 1 1 (1, 0)) + - (1))
    = (du, - dv, dphi, - dpsi) /\
    Preset.calculate_contribution (Preset.mkPresetCylinder 1 1 (1, 0))
      (Preset.x0 (Preset.mkPresetCylinder 1 1 (1, 0)) + - (2))
      (Preset.y0 (Preset.mkPresetCylinder 1 1 (1, 0)) + 1)
    = (du, - dv, - dphi, dpsi).
Proof.
  apply (cylinder_element_symmetries (Preset.mkPresetCylinder 1 1 (1, 0)) 2 1).
  lra.
Defined.

(** * Further properties of the aggregator *)

Lemma zip_with_maps {A B C D : Type} (F : B -> C -> D) (g : A -> B)
  (h : A -> C) (l : list A) :
  Np.zip_with F (map g l) (map h l) = map (fun a => F (g a) (h a)) l.
Proof.
  induction l as [| a l IH]; simpl; [reflexivity | now rewrite IH].
Qed.

(** What the four accumulators hold after the elements [seen]. *)
Definition sums_inv (points : list Field.point)
  (seen : list Field.FlowElement) (a : Field.Acc) : Prop :=
  Field.x_vels a =
    map (fun p => Rsum (map (fun o => Field.get_x_velocity_at o p) seen)) points /\
  Field.y_vels a =
    map (fun p => Rsum (map (fun o => Field.get_y_velocity_at o p) seen)) points /\
  Field.potential a =
    map (fun p => Rsum (map (fun o => Field.get_potential_at o p) seen)) points /\
  Field.streamfunction a =
    map (fun p => Rsum (map (fun o => Field.get_streamfunction_at o p) seen)) points.

Lemma sums_inv_init (points : list Field.point) :
  sums_inv points [] (Field.init points).
Proof. repeat split. Qed.

Lemma Rsum_snoc {A : Type} (f : A -> R) (seen : list A) (o : A) :
  Rsum (map f (seen ++ [o])) = Rsum (map f seen) + f o.
Proof. rewrite map_app, Rsum_app. simpl. ring. Qed.

Lemma sums_inv_step (points : list Field.point)
  (seen : list Field.FlowElement) (a : Field.Acc) (o : Field.FlowElement) :
  sums_inv points seen a -> sums_inv points (seen ++ [o]) (Field.step points a o).
Proof.
  intros [Hx [Hy [Hp Hs]]]. unfold sums_inv, Field.step.
  cbn [Field.x_vels Field.y_vels Field.potential Field.streamfunction].
  rewrite Hx, Hy, Hp, Hs, !zip_with_maps.
  repeat split; apply map_ext; intros p; now rewrite Rsum_snoc.
Qed.

Lemma sums_inv_loop (points : list Field.point)
  (l seen : list Field.FlowElement) (a : Field.Acc) :
  sums_inv points seen a ->
  sums_inv points (seen ++ l) (fold_left (Field.step points) l a).
Proof.
  revert seen a. induction l as [| o l IH]; intros seen a Ha.
  - rewrite app_nil_r. exact Ha.
  - cbn [fold_left].
    replace (seen ++ o :: l) with ((seen ++ [o]) ++ l)
      by (rewrite <- app_assoc; reflexivity).
    apply IH. now apply sums_inv_step.
Qed.

(** The shape of what [draw] returns on a non-empty collection. *)
Lemma draw_nonempty (objects : list (string * Field.FlowElement))
  (x_points y_points : list R) :
  objects <> [] ->
  let points := Field.mesh_points x_points y_points in
  let a := fold_left (Field.step points) (map snd objects) (Field.init points) in
  Field.draw objects x_points y_points = Some a /\
  sums_inv points (map snd objects) a /\
  freestream_inv (map snd objects) a /\
  Cp_consistent a.
Proof.
  intros Hne points a. unfold Field.draw.
  destruct objects as [| [name o] rest]; [contradiction |].
  cbn [List.length Nat.eqb]. fold points. fold a.
  split; [reflexivity |]. split; [| split].
  - apply (sums_inv_loop points (map snd ((name, o) :: rest)) []).
    apply sums_inv_init.
  - apply (freestream_inv_loop points (map snd ((name, o) :: rest)) []).
    apply freestream_inv_init.
  - unfold a. cbn [map snd fold_left].
    apply Cp_consistent_loop, Cp_consistent_step.
Qed.

(** X16.  Superposition: on a non-empty collection each of the four aggregated
    arrays holds, at every query point, the sum over all elements of that
    element's value there. *)
Theorem draw_superposes
  (objects : list (string * Field.FlowElement)) (x_points y_points : list R) :
  objects <> [] ->
  let points := Field.mesh_points x_points y_points in
  let total := fun (get : Field.FlowElement -> Field.point -> R) =>
    map (fun p => Rsum (map (fun o => get o p) (map snd objects))) points in
  exists a,
    Field.draw objects x_points y_points = Some a /\
    Field.x_vels a = total Field.get_x_velocity_at /\
    Field.y_vels a = total Field.get_y_velocity_at /\
    Field.potential a = total Field.get_potential_at /\
    Field.streamfunction a = total Field.get_streamfunction_at.
Proof.
  intros Hne points total.
  destruct (draw_nonempty objects x_points y_points Hne) as [E [S _]].
  eexists. split; [exact E |]. exact S.
Qed.

Lemma draw_superposes_witness :
  exists a,
    Field.draw [("a"%string, Field.Uniform 1 2); ("b"%string, Field.Uniform 3 4)]
      [0; 1] [0] = Some a /\
    Field.x_vels a =
      map (fun p =>
             Rsum (map (fun o => Field.get_x_velocity_at o p)
                     (map snd [("a"%string, Field.Uniform 1 2);
                               ("b"%string, Field.Uniform 3 4)])))
        (Field.mesh_points [0; 1] [0]).
Proof.
  destruct (draw_superposes
              [("a"%string, Field.Uniform 1 2); ("b"%string, Field.Uniform 3 4)]
              [0; 1] [0]) as [a [E [Hx _]]]; [discriminate |].
  exists a. split; assumption.
Defined.

(** ** Order of the elements *)

Lemma Rsum_permutation (l m : list R) : Permutation l m -> Rsum l = Rsum m.
Proof.
  unfold Rsum. induction 1; simpl; lra.
Qed.

Lemma filter_permutation {A : Type} (f : A -> bool) (l m : list A) :
  Permutation l m -> Permutation (filter f l) (filter f m).
Proof.
  induction 1 as [| x l m _ IH | x y l | l m n _ IH1 _ IH2]; simpl.
  - constructor.
  - destruct (f x); [now constructor | assumption].
  - destruct (f x), (f y); try apply Permutation_refl. apply perm_swap.
  - now apply Permutation_trans with (filter f m).
Qed.

Lemma Acc_eq (a b : Field.Acc) :
  Field.x_vels a = Field.x_vels b ->
  Field.y_vels a = Field.y_vels b ->
  Field.potential a = Field.potential b ->
  Field.streamfunction a = Field.streamfunction b ->
  Field.u_cumulative a = Field.u_cumulative b ->
  Field.v_cumulative a = Field.v_cumulative b ->
  Field.V2_infty a = Field.V2_infty b ->
  Field.Cp a = Field.Cp b ->
  a = b.
Proof.
  destruct a, b. cbn. intros. subst. reflexivity.
Qed.

(** X17.  The order in which the dictionary yields the elements does not matter:
    two collections with the same elements in different orders give the
    same result, in every field. *)
Theorem draw_order_irrelevant
  (objects objects' : list (string * Field.FlowElement))
  (x_points y_points : list R) :
  Permutation objects objects' ->
  Field.draw objects x_points y_points = Field.draw objects' x_points y_points.
Proof.
  intros HP.
  destruct objects as [| o rest].
  { apply Permutation_nil in HP. subst. reflexivity. }
  assert (Hne : o :: rest <> []) by discriminate.
  assert (Hne' : objects' <> []).
  { intros ->. apply Permutation_sym, Permutation_nil in HP. discriminate. }
  destruct (draw_nonempty (o :: rest) x_points y_points Hne)
    as [E [[Sx [Sy [Sp Ss]]] [[Fu [Fv F2]] C]]].
  destruct (draw_nonempty objects' x_points y_points Hne')
    as [E' [[Sx' [Sy' [Sp' Ss']]] [[Fu' [Fv' F2']] C']]].
  rewrite E, E'. f_equal.
  pose proof (Permutation_map snd HP) as HPs.
  assert (Sum : forall get : Field.FlowElement -> Field.point -> R,
            map (fun p => Rsum (map (fun o => get o p) (map snd (o :: rest))))
              (Field.mesh_points x_points y_points) =
            map (fun p => Rsum (map (fun o => get o p) (map snd objects')))
              (Field.mesh_points x_points y_points)).
  { intros get. apply map_ext. intros p. apply Rsum_permutation.
    now apply Permutation_map. }
  assert (Usum : uniform_u_sum (map snd (o :: rest)) =
                 uniform_u_sum (map snd objects')).
  { unfold uniform_u_sum. apply Rsum_permutation, Permutation_map.
    now apply filter_permutation. }
  assert (Vsum : uniform_v_sum (map snd (o :: rest)) =
                 uniform_v_sum (map snd objects')).
  { unfold uniform_v_sum. apply Rsum_permutation, Permutation_map.
    now apply filter_permutation. }
  assert (Ex : Field.x_vels
                 (fold_left (Field.step (Field.mesh_points x_points y_points))
                    (map snd (o :: rest))
                    (Field.init (Field.mesh_points x_points y_points))) =
               Field.x_vels
                 (fold_left (Field.step (Field.mesh_points x_points y_points))
                    (map snd objects')
                    (Field.init (Field.mesh_points x_points y_points))))
    by (rewrite Sx, Sx'; apply Sum).
  assert (Ey : Field.y_vels
                 (fold_left (Field.step (Field.mesh_points x_points y_points))
                    (map snd (o :: rest))
                    (Field.init (Field.mesh_points x_points y_points))) =
               Field.y_vels
                 (fold_left (Field.step (Field.mesh_points x_points y_points))
                    (map snd objects')
                    (Field.init (Field.mesh_points x_points y_points))))
    by (rewrite Sy, Sy'; apply Sum).
  assert (E2 : Field.V2_infty
                 (fold_left (Field.step (Field.mesh_points x_points y_points))
                    (map snd (o :: rest))
                    (Field.init (Field.mesh_points x_points y_points))) =
               Field.V2_infty
                 (fold_left (Field.step (Field.mesh_points x_points y_points))
                    (map snd objects')
                    (Field.init (Field.mesh_points x_points y_points)))).
  { rewrite F2, F2'. unfold freestream_speed2. now rewrite Usum, Vsum. }
  apply Acc_eq.
  - exact Ex.
  - exact Ey.
  - rewrite Sp, Sp'. apply Sum.
  - rewrite Ss, Ss'. apply Sum.
  - rewrite Fu, Fu'. exact Usum.
  - rewrite Fv, Fv'. exact Vsum.
  - exact E2.
  - unfold Cp_consistent in C, C'. rewrite C, C', Ex, Ey, E2. reflexivity.
Qed.

Lemma draw_order_irrelevant_witness :
  Field.draw [("a"%string, Field.Uniform 1 2); ("b"%string, Field.Uniform 3 4)]
    [0; 1] [0] =
  Field.draw [("b"%string, Field.Uniform 3 4); ("a"%string, Field.Uniform 1 2)]
    [0; 1] [0].
Proof.
  apply draw_order_irrelevant. apply perm_swap.
Defined.

(** ** Shapes and bounds *)

Lemma mesh_points_cons (xs : list R) (y : R) (ys : list R) :
  Field.mesh_points xs (y :: ys) =
  map (fun x => (x, y)) xs ++ Field.mesh_points xs ys.
Proof. reflexivity. Qed.

Lemma mesh_points_length (xs ys : list R) :
  List.length (Field.mesh_points xs ys) = (List.length ys * List.length xs)%nat.
Proof.
  induction ys as [| y ys IH]; [reflexivity |].
  rewrite mesh_points_cons, length_app, length_map.
  transitivity (List.length xs + List.length ys * List.length xs)%nat;
    [f_equal; exact IH | reflexivity].
Qed.

(** X19.  The query points are the mesh flattened row by row: entry
    [i * len(x_points) + j] is [(x_points[j], y_points[i])]. *)
Theorem mesh_points_row_major (xs ys : list R) (i j : nat) (x y : R) :
  nth_error xs j = Some x -> nth_error ys i = Some y ->
  nth_error (Field.mesh_points xs ys) (i * List.length xs + j) = Some (x, y).
Proof.
  intros Hx. revert i. induction ys as [| y0 ys IH]; intros i Hy.
  - destruct i; discriminate.
  - assert (Hj : (j < List.length xs)%nat).
    { apply nth_error_Some. rewrite Hx. discriminate. }
    rewrite mesh_points_cons. destruct i as [| i].
    + cbn in Hy. injection Hy as ->. cbn [Nat.mul Nat.add].
      rewrite nth_error_app1 by (rewrite length_map; exact Hj).
      rewrite nth_error_map, Hx. reflexivity.
    + cbn in Hy.
      rewrite nth_error_app2 by (rewrite length_map; lia).
      rewrite length_map.
      replace (S i * List.length xs + j - List.length xs)%nat
        with (i * List.length xs + j)%nat by lia.
      now apply IH.
Qed.

Lemma mesh_points_row_major_witness :
  nth_error (Field.mesh_points [1; 2; 3] [10; 20])
    (1 * List.length [1; 2; 3] + 2) = Some (3, 20).
Proof.
  apply mesh_points_row_major; reflexivity.
Defined.

Lemma Forall_zip_with {A B C : Type} (P : C -> Prop) (f : A -> B -> C)
  (l : list A) (m : list B) :
  (forall a b, P (f a b)) -> Forall P (Np.zip_with f l m).
Proof.
  intros H. revert m. induction l as [| a l IH]; intros [| b m]; simpl;
    constructor; auto.
Qed.

Lemma one_if_zero_square_sum_pos (u v : R) : 0 < one_if_zero (u ^ 2 + v ^ 2).
Proof.
  unfold one_if_zero. destruct (Req_dec_T (u ^ 2 + v ^ 2) 0); [lra | nra].
Qed.

(** X18.  On a non-empty collection every array [draw] produces has one entry per
    query point, [len(x_points) * len(y_points)] of them, so each can be
    reshaped to the mesh; the free-stream speed squared is positive; and no
    entry of [Cp] exceeds 1. *)
Theorem draw_shapes_and_Cp_bound
  (objects : list (string * Field.FlowElement)) (x_points y_points : list R) :
  objects <> [] ->
  let n := (List.length y_points * List.length x_points)%nat in
  exists a cp,
    Field.draw objects x_points y_points = Some a /\
    Field.Cp a = Some cp /\
    List.length (Field.x_vels a) = n /\
    List.length (Field.y_vels a) = n /\
    List.length (Field.potential a) = n /\
    List.length (Field.streamfunction a) = n /\
    List.length cp = n /\
    0 < Field.V2_infty a /\
    Forall (fun c => c <= 1) cp.
Proof.
  intros Hne n.
  destruct (draw_nonempty objects x_points y_points Hne)
    as [E [[Sx [Sy [Sp Ss]]] [[_ [_ F2]] C]]].
  set (points := Field.mesh_points x_points y_points) in *.
  set (a := fold_left (Field.step points) (map snd objects) (Field.init points))
    in *.
  assert (Hn : List.length points = n) by apply mesh_points_length.
  assert (Hpos : 0 < Field.V2_infty a).
  { rewrite F2. apply one_if_zero_square_sum_pos. }
  exists a. eexists. split; [exact E |]. split; [exact C |].
  rewrite Sx, Sy, Sp, Ss, zip_with_maps, !length_map.
  repeat split; try exact Hn; try exact Hpos.
  apply Forall_map, Forall_forall. intros p _.
  set (s := Rsum _ ^ 2 + Rsum _ ^ 2).
  assert (Hs : 0 <= s) by (unfold s; nra).
  assert (Hq : 0 <= s / Field.V2_infty a).
  { apply Rmult_le_pos; [exact Hs |]. left. now apply Rinv_0_lt_compat. }
  lra.
Qed.

Lemma draw_shapes_and_Cp_bound_witness :
  exists a cp,
    Field.draw [("a"%string, Field.Uniform 1 2)] [0; 1] [0] = Some a /\
    Field.Cp a = Some cp /\
    List.length cp = (List.length [0] * List.length [0; 1])%nat /\
    Forall (fun c => c <= 1) cp.
Proof.
  destruct (draw_shapes_and_Cp_bound [("a"%string, Field.Uniform 1 2)] [0; 1] [0])
    as [a [cp [E [C [_ [_ [_ [_ [L [_ B]]]]]]]]]]; [discriminate |].
  exists a, cp. repeat split; assumption.
Defined.

(** * Marker styling *)

Lemma tanh_by_exp (x : R) : tanh x = (exp x ^ 2 - 1) / (exp x ^ 2 + 1).
Proof.
  pose proof (exp_pos x) as He.
  unfold tanh, sinh, cosh. rewrite exp_Ropp. field. split; nra.
Qed.

Lemma exp_ge_1 (x : R) : 0 <= x -> 1 <= exp x.
Proof. intros Hx. pose proof (exp_ineq1_le x). lra. Qed.

Lemma tanh_range (x : R) : 0 <= x -> 0 <= tanh x < 1.
Proof.
  intros Hx. rewrite tanh_by_exp. pose proof (exp_ge_1 x Hx) as He.
  set (e := exp x) in *.
  assert (Hd : 0 < e ^ 2 + 1) by nra.
  split.
  - apply Rmult_le_pos; [nra |]. left. now apply Rinv_0_lt_compat.
  - apply (Rmult_lt_reg_r (e ^ 2 + 1)); [exact Hd |].
    unfold Rdiv. rewrite Rmult_assoc, Rinv_l by lra. lra.
Qed.

Lemma tanh_monotone (x y : R) : 0 <= x -> x <= y -> tanh x <= tanh y.
Proof.
  intros Hx Hxy. rewrite !tanh_by_exp.
  pose proof (exp_ge_1 x Hx) as Ha.
  assert (Hab : exp x <= exp y).
  { destruct Hxy as [Hlt | ->]; [left; now apply exp_increasing | right; reflexivity]. }
  set (a := exp x) in *. set (b := exp y) in *.
  assert (Hda : 0 < a ^ 2 + 1) by nra. assert (Hdb : 0 < b ^ 2 + 1) by nra.
  apply Rminus_le.
  replace ((a ^ 2 - 1) / (a ^ 2 + 1) - (b ^ 2 - 1) / (b ^ 2 + 1))
    with (- (2 * (b ^ 2 - a ^ 2) / ((a ^ 2 + 1) * (b ^ 2 + 1))))
    by (field; lra).
  assert (0 <= 2 * (b ^ 2 - a ^ 2) / ((a ^ 2 + 1) * (b ^ 2 + 1))).
  { apply Rmult_le_pos; [nra |]. left. apply Rinv_0_lt_compat.
    now apply Rmult_lt_0_compat. }
  lra.
Qed.

(** X20.  Marker size and line width are the same number; it always lies in
    [[10, 20]], whether or not the object has a strength. *)
Theorem marker_size_bounds (strength : option R) :
  10 <= Display.dot_size strength <= 20 /\
  Display.line_width strength = Display.dot_size strength.
Proof.
  split; [| reflexivity].
  unfold Display.dot_size.
  assert (H : 0 <= match strength with
                   | Some s => Rabs s / 10
                   | None => 1
                   end).
  { destruct strength as [s |]; [| lra]. pose proof (Rabs_pos s). lra. }
  pose proof (tanh_range _ H). lra.
Qed.

(** X21.  The size depends on the strength only through its absolute value, grows
    with it, is 10 for a zero strength, and an object without a strength is
    drawn like one of strength 10. *)
Theorem marker_size_grows_with_strength (s1 s2 : R) :
  Rabs s1 <= Rabs s2 ->
  Display.dot_size (Some s1) <= Display.dot_size (Some s2) /\
  Display.dot_size (Some (- s1)) = Display.dot_size (Some s1) /\
  Display.dot_size (Some 0) = 10 /\
  Display.dot_size None = Display.dot_size (Some 10).
Proof.
  intros H. unfold Display.dot_size. split; [| split; [| split]].
  - pose proof (Rabs_pos s1).
    assert (tanh (Rabs s1 / 10) <= tanh (Rabs s2 / 10))
      by (apply tanh_monotone; lra).
    lra.
  - rewrite Rabs_Ropp. reflexivity.
  - rewrite Rabs_R0. replace (0 / 10) with 0 by field.
    rewrite tanh_by_exp, exp_0. field.
  - rewrite (Rabs_pos_eq 10) by lra. replace (10 / 10) with 1 by field.
    reflexivity.
Qed.

Lemma marker_size_grows_with_strength_witness :
  Display.dot_size (Some 1) <= Display.dot_size (Some 2).
Proof.
  apply (marker_size_grows_with_strength 1 2).
  rewrite !Rabs_pos_eq by lra. lra.
Defined.

(** * The half-surface traces *)

Lemma filter_all {A : Type} (f : A -> bool) (l : list A) :
  (forall x, In x l -> f x = true) -> filter f l = l.
Proof.
  induction l as [| a l IH]; intros H; [reflexivity |]. simpl.
  rewrite (H a (or_introl eq_refl)). f_equal. apply IH.
  intros x Hx. apply H. now right.
Qed.

Lemma filter_none {A : Type} (f : A -> bool) (l : list A) :
  (forall x, In x l -> f x = false) -> filter f l = [].
Proof.
  induction l as [| a l IH]; intros H; [reflexivity |]. simpl.
  rewrite (H a (or_introl eq_refl)). apply IH.
  intros x Hx. apply H. now right.
Qed.

(** With an even number [2k] of samples, sample [i] lies in the upper half
    exactly when [i < k], and no sample falls on [pi]. *)
Lemma sample_side (k i : nat) :
  (1 <= k)%nat ->
  let th := 0 + INR i * ((2 * PI - 0) / INR (k + k - 1)) in
  ((i < k)%nat -> th < PI) /\ ((k <= i)%nat -> PI < th).
Proof.
  intros Hk th. pose proof PI_RGT_0 as Hpi.
  assert (Em : INR (k + k - 1) = 2 * INR k - 1).
  { rewrite minus_INR by lia. rewrite plus_INR. simpl. ring. }
  assert (Hk1 : 1 <= INR k) by (apply (le_INR 1); exact Hk).
  assert (Hm : 0 < INR (k + k - 1)) by lra.
  set (m := INR (k + k - 1)) in *. set (q := PI / m).
  assert (Hq : 0 < q) by (unfold q; apply Rdiv_lt_0_compat; assumption).
  assert (Eq : PI = q * m) by (unfold q; field; lra).
  assert (Eth : th = 2 * INR i * q) by (unfold th, q; field; lra).
  split; intros Hi.
  - assert (INR i + 1 <= INR k).
    { rewrite <- S_INR. apply le_INR. lia. }
    rewrite Eth, Eq. nra.
  - assert (INR k <= INR i) by (apply le_INR; exact Hi).
    rewrite Eth, Eq. nra.
Qed.

Lemma half_traces (k : nat) (sp : R -> Cyl.SurfacePoint) :
  (1 <= k)%nat -> (forall th, Cyl.s_theta (sp th) = th) ->
  let g := fun i : nat => 0 + INR i * ((2 * PI - 0) / INR (k + k - 1)) in
  map sp (Cyl.thetaS (k + k)) =
    map sp (map g (seq 0 k)) ++ map sp (map g (seq k k)) /\
  Traces.top_half (map sp (Cyl.thetaS (k + k))) = map sp (map g (seq 0 k)) /\
  Traces.bottom_half (map sp (Cyl.thetaS (k + k))) = map sp (map g (seq k k)).
Proof.
  intros Hk Hsp g.
  assert (Split : map sp (Cyl.thetaS (k + k)) =
                  map sp (map g (seq 0 k)) ++ map sp (map g (seq k k))).
  { unfold Cyl.thetaS, Np.linspace. fold g.
    rewrite seq_app, !map_app. reflexivity. }
  split; [exact Split |].
  rewrite Split. unfold Traces.top_half, Traces.bottom_half.
  rewrite !filter_app.
  assert (Side : forall i,
            ((i < k)%nat -> g i < PI) /\ ((k <= i)%nat -> PI < g i))
    by (intros i; apply (sample_side k i Hk)).
  assert (In_low : forall p, In p (map sp (map g (seq 0 k))) ->
                             Cyl.s_theta p < PI).
  { intros p Hp. rewrite map_map in Hp. apply in_map_iff in Hp.
    destruct Hp as [i [<- Hi]]. apply in_seq in Hi. rewrite Hsp.
    apply Side. lia. }
  assert (In_high : forall p, In p (map sp (map g (seq k k))) ->
                              PI < Cyl.s_theta p).
  { intros p Hp. rewrite map_map in Hp. apply in_map_iff in Hp.
    destruct Hp as [i [<- Hi]]. apply in_seq in Hi. rewrite Hsp.
    apply Side. lia. }
  split.
  - rewrite filter_all, filter_none; [apply app_nil_r | |].
    + intros p Hp. apply In_high in Hp.
      destruct (Rle_dec (Cyl.s_theta p) PI); [lra | reflexivity].
    + intros p Hp. apply In_low in Hp.
      destruct (Rle_dec (Cyl.s_theta p) PI); [reflexivity | lra].
  - rewrite filter_none, filter_all; [reflexivity | |].
    + intros p Hp. apply In_high in Hp.
      destruct (Rge_dec (Cyl.s_theta p) PI); [reflexivity | lra].
    + intros p Hp. apply In_low in Hp.
      destruct (Rge_dec (Cyl.s_theta p) PI); [lra | reflexivity].
Qed.

(** X7.  The top-half and bottom-half traces split the surface samples of a
    returning call in two: the top half is the first 125 samples, the bottom
    half the last 125, no sample is drawn on both and none is left out. *)
Theorem half_surface_traces_split
  (Lx Ly : R * R) (Vinf cylinderRadius strength : R) :
  valid_extents Lx Ly -> 0 < Vinf -> 0 < cylinderRadius ->
  exists sol,
    Cyl.plotRotatingCylinder Lx Ly Vinf cylinderRadius strength = Ok sol /\
    Cyl.sol_surface sol =
      Traces.top_half (Cyl.sol_surface sol)
      ++ Traces.bottom_half (Cyl.sol_surface sol) /\
    List.length (Traces.top_half (Cyl.sol_surface sol)) = 125%nat /\
    List.length (Traces.bottom_half (Cyl.sol_surface sol)) = 125%nat /\
    Forall (fun p => Cyl.s_theta p < PI) (Traces.top_half (Cyl.sol_surface sol)) /\
    Forall (fun p => PI < Cyl.s_theta p)
      (Traces.bottom_half (Cyl.sol_surface sol)).
Proof.
  intros He Hv Hr.
  destruct (plot_returns Lx Ly Vinf cylinderRadius strength He Hv Hr)
    as [sol [E [_ [Es _]]]].
  exists sol. split; [exact E |]. rewrite Es.
  change Cyl.surface_samples with (125 + 125)%nat.
  set (sp := Cyl.surface_point Vinf cylinderRadius
               (strength / (2 * PI * cylinderRadius))).
  destruct (half_traces 125 sp ltac:(lia) ltac:(intros; reflexivity))
    as [Split [Top Bottom]].
  rewrite Top, Bottom.
  split; [exact Split |].
  rewrite !length_map, !length_seq.
  split; [reflexivity |]. split; [reflexivity |].
  split; apply Forall_forall; intros p Hp; rewrite map_map in Hp;
    apply in_map_iff in Hp; destruct Hp as [i [<- Hi]]; apply in_seq in Hi;
    apply (sample_side 125 i); lia.
Qed.

Lemma half_surface_traces_split_witness :
  exists sol,
    Cyl.plotRotatingCylinder (-5, 5) (-5, 5) 1 1 0 = Ok sol /\
    Cyl.sol_surface sol =
      Traces.top_half (Cyl.sol_surface sol)
      ++ Traces.bottom_half (Cyl.sol_surface sol).
Proof.
  destruct (half_surface_traces_split (-5, 5) (-5, 5) 1 1 0)
    as [sol [E [S _]]].
  - unfold valid_extents; simpl; lra.
  - lra.
  - lra.
  - exists sol. split; assumption.
Defined.

(** X6.  While the stagnation points are on the surface ([-1 <= condition <= 1])
    the surface curves pass through the markers drawn for them: each
    stagnation angle is a number, and at it the surface velocity components
    and speed are 0 (the
    markers on the velocity plots are drawn at height 0) and the surface
    pressure coefficient is 1 (the markers on the Cp plots are drawn at
    height 1). *)
Theorem surface_curves_meet_stagnation_markers
  (Lx Ly : R * R) (Vinf cylinderRadius strength : R) :
  valid_extents Lx Ly -> 0 < Vinf -> 0 < cylinderRadius ->
  -1 <= strength / (4 * PI * Vinf * cylinderRadius) <= 1 ->
  exists sol,
    Cyl.plotRotatingCylinder Lx Ly Vinf cylinderRadius strength = Ok sol /\
    Cyl.thetaStag (Cyl.sol_stag sol) <> [] /\
    Forall (fun t =>
              exists theta, t = Some theta /\
              let p := Cyl.surface_point Vinf cylinderRadius
                         (strength / (2 * PI * cylinderRadius)) theta in
              Cyl.s_Vx p = 0 /\ Cyl.s_Vy p = 0 /\ Cyl.s_Vmag p = 0 /\
              Cyl.s_Cp p = 1)
      (Cyl.thetaStag (Cyl.sol_stag sol)).
Proof.
  intros He Hv Hr [Hl Hu]. pose proof PI_RGT_0 as Hpi.
  destruct (plot_returns Lx Ly Vinf cylinderRadius strength He Hv Hr)
    as [sol [E [_ [_ [Est _]]]]].
  destruct (stagnation_returns Vinf cylinderRadius strength Hv Hr)
    as [st [Est' [_ [Hlt [Heq _]]]]].
  rewrite Est in Est'. injection Est' as <-.
  exists sol. split; [exact E |].
  set (c := strength / (4 * PI * Vinf * cylinderRadius)) in *.
  assert (Es : strength = c * (4 * PI * Vinf * cylinderRadius))
    by (unfold c; field; lra).
  assert (At : forall theta, sin theta = - c ->
            let p := Cyl.surface_point Vinf cylinderRadius
                       (strength / (2 * PI * cylinderRadius)) theta in
            Cyl.s_Vx p = 0 /\ Cyl.s_Vy p = 0 /\ Cyl.s_Vmag p = 0 /\
            Cyl.s_Cp p = 1).
  { intros theta Hsin. unfold Cyl.surface_point.
    cbn [Cyl.s_Vx Cyl.s_Vy Cyl.s_Vmag Cyl.s_Cp].
    assert (E0 : (1 - cylinderRadius * cylinderRadius
                      / (cylinderRadius * 1 * (cylinderRadius * 1)))
                 * Vinf * cos theta = 0) by (field; lra).
    assert (E1 : - (1 + cylinderRadius * cylinderRadius
                        / (cylinderRadius * 1 * (cylinderRadius * 1)))
                 * Vinf * sin theta
                 - strength / (2 * PI * cylinderRadius) = 0).
    { rewrite Hsin, Es. field. lra. }
    rewrite E0, E1.
    replace (0 * 0 + 0 * 0) with 0 by ring. rewrite sqrt_0.
    repeat split; try ring. field. lra. }
  destruct Hu as [Lt | Eq].
  - destruct (Hlt Lt) as [Hth _].
    rewrite surface_angles_defined in Hth by lra. rewrite Hth.
    split; [discriminate |].
    assert (S1 : sin (asin (- c)) = - c) by (apply sin_asin; lra).
    apply Forall_cons; [| apply Forall_cons; [| apply Forall_nil]];
      (eexists; split; [reflexivity |]); apply At.
    + now rewrite sin_wrap_negative, sin_PI_x.
    + now rewrite sin_wrap_negative.
  - destruct (Heq Eq) as [-> _]. split; [discriminate |].
    apply Forall_cons; [| apply Forall_nil].
    eexists; split; [reflexivity |]. apply At.
    rewrite sin_three_half_pi. lra.
Qed.

Lemma surface_curves_meet_stagnation_markers_witness :
  exists sol,
    Cyl.plotRotatingCylinder (-5, 5) (-5, 5) 1 1 0 = Ok sol /\
    Cyl.thetaStag (Cyl.sol_stag sol) <> [] /\
    Forall (fun t =>
              exists theta, t = Some theta /\
              let p := Cyl.surface_point 1 1 (0 / (2 * PI * 1)) theta in
              Cyl.s_Vx p = 0 /\ Cyl.s_Vy p = 0 /\ Cyl.s_Vmag p = 0 /\
              Cyl.s_Cp p = 1)
      (Cyl.thetaStag (Cyl.sol_stag sol)).
Proof.
  apply (surface_curves_meet_stagnation_markers (-5, 5) (-5, 5) 1 1 0).
  - unfold valid_extents; simpl; lra.
  - lra.
  - lra.
  - unfold Rdiv. rewrite Rmult_0_l. lra.
Defined.
